(** * btc-runtime: the byte cursor, the pointer encoder and the two stores

    A shallow embedding of
      - [BytesReader]            (the sequential decoder over a [DataView]),
      - [encodePointer]          (src/runtime/math/abi.ts),
      - [AddressMemoryMap]       (src/runtime/memory/AddressMemoryMap.ts),
      - [MultiAddressMemoryMap]  (src/runtime/memory/MultiAddressMemoryMap.ts),
    followed by the properties of the decoding and storage-addressing layer.

    Conventions.  A byte is a [Z] in [0, 256); a fixed-width integer is a [Z]
    with its wrap-around written where the source computes with it; a method
    of the reader is a function from the reader's state to an outcome and the
    state the method leaves behind, so that what a [throw] leaves in the
    cursor can be observed. *)

From Stdlib Require Import ZArith Lia Bool.
From stdpp Require Import base list strings gmap.

Local Open Scope Z_scope.

(** ** Fixed-width integers *)

Definition wrap_signed (w z : Z) : Z := (z + 2 ^ (w - 1)) mod 2 ^ w - 2 ^ (w - 1).

Definition i32 (z : Z) : Z := wrap_signed 32 z.
Definition i64 (z : Z) : Z := wrap_signed 64 z.
Definition i128 (z : Z) : Z := wrap_signed 128 z.
Definition i256 (z : Z) : Z := wrap_signed 256 z.

Definition I32_MAX : Z := 2147483647.

(** Little-endian and big-endian readings of a byte sequence. *)
Definition le_int (bs : list Z) : Z := foldr (λ b acc, b + 256 * acc) 0 bs.
Definition be_int (bs : list Z) : Z := foldl (λ acc b, acc * 256 + b) 0 bs.

(** A 32-bit float is kept as its IEEE-754 bit pattern: the reader only moves
    the four bytes, it never computes with the number. *)
Record f32 : Type := F32 { f32_bits : Z }.

(** ** Outcomes *)

Inductive error : Type :=
  | EndOfBuffer (size offset : Z)  (* [Error] thrown by [verifyEnd]; carries the two numbers of its message *)
  | RangeError                     (* thrown by a [DataView] accessor asked for bytes outside the view,
                                      by [a[i]] past the end of a typed array, and by [new] of an
                                      array longer than the runtime can allocate *)
  | Revert (msg : string).         (* [Revert] thrown by the collection decoders *)

Inductive result (A : Type) : Type :=
  | Ok (a : A)
  | Throw (e : error).
Arguments Ok {A} a.
Arguments Throw {A} e.

Definition is_Ok {A} (x : result A) : Prop := ∃ a, x = Ok a.
Definition is_Throw {A} (x : result A) : Prop := ∃ e, x = Throw e.

(** The two error kinds of the decoder: a read that cannot be satisfied
    within the buffer, and a violated structural constraint. *)
Definition BoundsError (e : error) : Prop :=
  match e with
  | EndOfBuffer _ _ | RangeError => True
  | Revert _ => False
  end.

Definition ValidationError (e : error) : Prop :=
  match e with
  | Revert _ => True
  | _ => False
  end.

(** ** DataView

    The view over the backing bytes.  An accessor returns the bytes at
    [byteOffset .. byteOffset + n) read in the requested byte order, and
    throws a [RangeError] when that window does not lie inside the view. *)

Record DataView : Type := mkDataView { view_data : list Z }.

Definition byteLength (v : DataView) : Z := Z.of_nat (length (view_data v)).

Definition window (v : DataView) (byteOffset : Z) (n : nat) : list Z :=
  take n (drop (Z.to_nat byteOffset) (view_data v)).

Definition in_view (v : DataView) (byteOffset : Z) (n : nat) : bool :=
  (0 <=? byteOffset) && (byteOffset + Z.of_nat n <=? byteLength v).

Definition view_get (v : DataView) (byteOffset : Z) (n : nat) (littleEndian : bool) : result Z :=
  if in_view v byteOffset n
  then Ok ((if littleEndian then le_int else be_int) (window v byteOffset n))
  else Throw RangeError.

Definition getUint8 (v : DataView) (byteOffset : Z) : result Z :=
  view_get v byteOffset 1 true.
Definition getUint16 (v : DataView) (byteOffset : Z) (littleEndian : bool) : result Z :=
  view_get v byteOffset 2 littleEndian.
Definition getUint32 (v : DataView) (byteOffset : Z) (littleEndian : bool) : result Z :=
  view_get v byteOffset 4 littleEndian.
Definition getUint64 (v : DataView) (byteOffset : Z) (littleEndian : bool) : result Z :=
  view_get v byteOffset 8 littleEndian.
Definition getInt64 (v : DataView) (byteOffset : Z) (littleEndian : bool) : result Z :=
  match view_get v byteOffset 8 littleEndian with
  | Ok z => Ok (i64 z)
  | Throw e => Throw e
  end.
Definition getFloat32 (v : DataView) (byteOffset : Z) (littleEndian : bool) : result f32 :=
  match view_get v byteOffset 4 littleEndian with
  | Ok z => Ok (F32 z)
  | Throw e => Throw e
  end.

(** ** Arrays

    [a[i] = x] on a growable array: in range it overwrites, past the end the
    array is extended up to the index. *)
Definition array_set {A} (dflt : A) (a : list A) (i : nat) (x : A) : list A :=
  if decide (i < length a)%nat then <[i:=x]> a
  else a ++ replicate (i - length a) dflt ++ [x].

(** The longest block the runtime allocates ([BLOCK_MAXSIZE] of the
    AssemblyScript runtime, 2^30 - 4 bytes): [new Uint8Array(length)] and
    [new Array<T>(length)] throw a [RangeError] ('Invalid length') for a
    longer array, before anything else is done; the slots of an [Array] of
    references take 4 bytes each. *)
Definition BLOCK_MAXSIZE : Z := 1073741820.

Definition new_Uint8Array (length : Z) : result (list Z) :=
  if length >? BLOCK_MAXSIZE
  then Throw RangeError
  else Ok (replicate (Z.to_nat length) 0).

Definition new_Array {A} (empty : A) (length : Z) : result (list A) :=
  if length >? Z.shiftr BLOCK_MAXSIZE 2
  then Throw RangeError
  else Ok (replicate (Z.to_nat length) empty).

(** ** Big integers (as-bignum): a fixed-width big-endian byte sequence. *)
Definition u128_fromBytesBE (bs : list Z) : Z := be_int bs.
Definition u256_fromBytesBE (bs : list Z) : Z := be_int bs.
Definition i128_fromBytesBE (bs : list Z) : Z := i128 (be_int bs).
Definition i256_fromBytesBE (bs : list Z) : Z := i256 (be_int bs).

(** ** Addresses and address-keyed maps *)

Abbreviation Address := (list Z) (only parsing).

(** What the reader takes from outside this unit: the width of an address
    (the constant [ADDRESS_BYTE_LENGTH] of types/Address) and the platform's
    UTF-8 decoder ([String.UTF8.decode]). *)
Class Platform : Type := {
  ADDRESS_BYTE_LENGTH : nat;
  UTF8_decode : list Z → string;
}.

(** Modelled from the spec: [AddressMap] (generic/AddressMap is not among the
    sources) is the address-keyed map of the decoder: keys are compared by
    their bytes, [has] tells whether a key is bound and [set] binds a key,
    replacing what it was bound to. *)
Abbreviation AddressMap V := (gmap (list Z) V) (only parsing).

Definition AddressMap_has {V} (m : AddressMap V) (key : Address) : bool :=
  bool_decide (is_Some (m !! key)).
Definition AddressMap_set {V} (m : AddressMap V) (key : Address) (value : V) : AddressMap V :=
  <[key:=value]> m.

(** ** The reader's state and its methods *)

Record BytesReader : Type := mkBytesReader {
  buffer : DataView;
  currentOffset : Z;
}.

(** [new BytesReader(bytes)]: the view is taken over the backing buffer of the
    array ([bytes.buffer]), given here by its bytes; the cursor starts at 0. *)
Definition new_BytesReader (bytes : list Z) : BytesReader :=
  {| buffer := mkDataView bytes; currentOffset := 0 |}.

Definition Reader (A : Type) : Type := BytesReader → result A * BytesReader.

Definition ret {A} (a : A) : Reader A := λ r, (Ok a, r).
Definition throw {A} (e : error) : Reader A := λ r, (Throw e, r).
Definition bind {A B} (m : Reader A) (f : A → Reader B) : Reader B :=
  λ r, match m r with
       | (Ok a, r') => f a r'
       | (Throw e, r') => (Throw e, r')
       end.

Notation "x <- m ;; k" := (bind m (λ x, k))
  (at level 100, m at next level, right associativity, only parsing).
Notation "m ;;; k" := (bind m (λ _, k))
  (at level 100, right associativity, only parsing).

(** An accessor of the view run at the reader's buffer. *)
Definition on_buffer {A} (f : DataView → result A) : Reader A :=
  λ r, (f (buffer r), r).

(** A computation that does not touch the reader. *)
Definition lift {A} (x : result A) : Reader A := λ r, (x, r).

Definition getOffset : Reader Z := λ r, (Ok (currentOffset r), r).
Definition setOffset (offset : Z) : Reader unit :=
  λ r, (Ok tt, {| buffer := buffer r; currentOffset := offset |}).

(** [for (let i = 0; i < n; i++) body]: the loop-carried locals are [a]; the
    counter cannot wrap, being below a bound of its own type. *)
Fixpoint for_loop {A} (n : nat) (i : nat) (body : nat → A → Reader A) (a : A) : Reader A :=
  match n with
  | O => ret a
  | S n' => a' <- body i a ;; for_loop n' (S i) body a'
  end.

Definition verifyEnd (size : Z) : Reader unit :=
  λ r, if currentOffset r >? byteLength (buffer r)
       then (Throw (EndOfBuffer size (currentOffset r)), r)
       else (Ok tt, r).

(** [this.buffer.getUint8(this.currentOffset++)]: the argument is evaluated,
    and the cursor incremented, before the accessor runs. *)
Definition readU8 : Reader Z :=
  off <- getOffset ;;
  verifyEnd (i32 (off + 1)) ;;;
  setOffset (i32 (off + 1)) ;;;
  on_buffer (λ v, getUint8 v off).

Definition readU16 : Reader Z :=
  off <- getOffset ;;
  verifyEnd (i32 (off + 2)) ;;;
  value <- on_buffer (λ v, getUint16 v off true) ;;
  setOffset (i32 (off + 2)) ;;;
  ret value.

Definition readU32 (le : bool) : Reader Z :=
  off <- getOffset ;;
  verifyEnd (i32 (off + 4)) ;;;
  value <- on_buffer (λ v, getUint32 v off le) ;;
  setOffset (i32 (off + 4)) ;;;
  ret value.

Definition readU64 : Reader Z :=
  off <- getOffset ;;
  verifyEnd (i32 (off + 8)) ;;;
  value <- on_buffer (λ v, getUint64 v off true) ;;
  setOffset (i32 (off + 8)) ;;;
  ret value.

Definition readI64 : Reader Z :=
  off <- getOffset ;;
  verifyEnd (i32 (off + 8)) ;;;
  value <- on_buffer (λ v, getInt64 v off true) ;;
  setOffset (i32 (off + 8)) ;;;
  ret value.

Definition readBytesBE (count : Z) : Reader (list Z) :=
  for_loop (Z.to_nat count) 0
    (λ i next32Bytes, b <- readU8 ;; ret (array_set 0 next32Bytes i b)) [].

Definition readU256 : Reader Z :=
  off <- getOffset ;;
  verifyEnd (i32 (off + 32)) ;;;
  next32Bytes <- readBytesBE 32 ;;
  ret (u256_fromBytesBE next32Bytes).

Definition readU128 : Reader Z :=
  off <- getOffset ;;
  verifyEnd (i32 (off + 16)) ;;;
  next16Bytes <- readBytesBE 16 ;;
  ret (u128_fromBytesBE next16Bytes).

Definition readI128 : Reader Z :=
  off <- getOffset ;;
  verifyEnd (i32 (off + 16)) ;;;
  next16Bytes <- readBytesBE 16 ;;
  ret (i128_fromBytesBE next16Bytes).

Definition readI256 : Reader Z :=
  off <- getOffset ;;
  verifyEnd (i32 (off + 32)) ;;;
  next32Bytes <- readBytesBE 32 ;;
  ret (i256_fromBytesBE next32Bytes).

(** [readBytes]: [bytes] is allocated first, as [length] zero bytes, and
    the allocation throws for a length beyond the longest block, before any
    byte is read; a zero byte read in zero-stop mode cuts [bytes] to the [i]
    bytes stored so far and leaves the loop at once. *)
Fixpoint readBytes_loop (zeroStop : bool) (n : nat) (i : nat) (bytes : list Z) : Reader (list Z) :=
  match n with
  | O => ret bytes
  | S n' =>
      byte <- readU8 ;;
      if zeroStop && (byte =? 0)
      then ret (take i bytes)
      else readBytes_loop zeroStop n' (S i) (<[i:=byte]> bytes)
  end.

Definition readBytes (len : Z) (zeroStop : bool) : Reader (list Z) :=
  bytes <- lift (new_Uint8Array len) ;;
  readBytes_loop zeroStop (Z.to_nat len) 0 bytes.

Definition readBytesWithLength : Reader (list Z) :=
  len <- readU32 true ;;
  readBytes len false.

Definition readString `{Platform} (len : Z) : Reader string :=
  bytes <- readBytes len true ;;
  ret (UTF8_decode bytes).

Definition readStringWithLength `{Platform} : Reader string :=
  len <- readU16 ;;
  readString len.

Definition readSelector : Reader Z := readU32 false.

Definition readBoolean : Reader bool :=
  b <- readU8 ;;
  ret (negb (b =? 0)).

Definition readFloat : Reader f32 :=
  off <- getOffset ;;
  value <- on_buffer (λ v, getFloat32 v off true) ;;
  setOffset (i32 (off + 4)) ;;;
  ret value.

(** [new Address()] is an array of [ADDRESS_BYTE_LENGTH] zero bytes. *)
Definition readAddress `{Platform} : Reader Address :=
  for_loop ADDRESS_BYTE_LENGTH 0
    (λ i bytes, b <- readU8 ;; ret (<[i:=b]> bytes))
    (replicate ADDRESS_BYTE_LENGTH 0).

(** [new Array<Address>(length)]: the count is a [u16], always below the
    longest array the runtime allocates, so this allocation cannot throw;
    every slot is assigned before the array is returned. *)
Definition readAddressArray `{Platform} : Reader (list Address) :=
  len <- readU16 ;;
  for_loop (Z.to_nat len) 0
    (λ i result, address <- readAddress ;; ret (<[i:=address]> result))
    (replicate (Z.to_nat len) []).

(** [new Array<u256>(length)]: the count is a [u32], and the allocation
    throws for a count beyond the longest array of references. *)
Definition readTuple : Reader (list Z) :=
  len <- readU32 true ;;
  result <- lift (new_Array 0 len) ;;
  for_loop (Z.to_nat len) 0
    (λ i result, value <- readU256 ;; ret (<[i:=value]> result))
    result.

Definition readAddressValueTuple `{Platform} : Reader (AddressMap Z) :=
  len <- readU16 ;;
  for_loop (Z.to_nat len) 0
    (λ _ result,
       address <- readAddress ;;
       value <- readU256 ;;
       if AddressMap_has result address
       then throw (Revert "Duplicate address found in map")
       else ret (AddressMap_set result address value))
    ∅.

Definition readMultiBytesAddressMap `{Platform} : Reader (AddressMap (list (list Z))) :=
  size <- readU8 ;;
  if size >? 8 then throw (Revert "Too many contract called.") else
  for_loop (Z.to_nat size) 0
    (λ _ map,
       address <- readAddress ;;
       responseSize <- readU8 ;;
       if responseSize >? 10 then throw (Revert "Too many calls.") else
       calls <- for_loop (Z.to_nat responseSize) 0
                  (λ _ calls, response <- readBytesWithLength ;; ret (calls ++ [response]))
                  [] ;;
       ret (AddressMap_set map address calls))
    ∅.

(** The transaction records of env/classes/UTXO: plain field carriers. *)
Record TransactionInput : Type := mkTransactionInput {
  txId : list Z;
  outputIndex : Z;
  scriptSig : list Z;
}.

Record TransactionOutput : Type := mkTransactionOutput {
  index : Z;
  scriptPubKey : list Z;
  value : Z;
}.

(** A [StaticArray] is allocated with empty slots ([None]) and every slot is
    assigned before the array is returned; its length is a [u8], always
    short enough to be allocated. *)
Definition readTransactionInputs : Reader (list (option TransactionInput)) :=
  len <- readU8 ;;
  for_loop (Z.to_nat len) 0
    (λ i result,
       txId <- readBytes 32 false ;;
       outputIndex <- readU8 ;;
       scriptSig <- readBytesWithLength ;;
       ret (<[i:=Some (mkTransactionInput txId outputIndex scriptSig)]> result))
    (replicate (Z.to_nat len) None).

Definition readTransactionOutputs : Reader (list (option TransactionOutput)) :=
  len <- readU8 ;;
  for_loop (Z.to_nat len) 0
    (λ i result,
       index <- readU8 ;;
       scriptPubKey <- readBytesWithLength ;;
       value <- readU64 ;;
       ret (<[i:=Some (mkTransactionOutput index scriptPubKey value)]> result))
    (replicate (Z.to_nat len) None).

(** ** The read operations as one family

    [read_op A] names a read operation that returns an [A]; [run] is the
    method it names. *)
Inductive read_op : Type → Type :=
  | ReadU8 : read_op Z
  | ReadU16 : read_op Z
  | ReadU32 (le : bool) : read_op Z
  | ReadU64 : read_op Z
  | ReadI64 : read_op Z
  | ReadU128 : read_op Z
  | ReadI128 : read_op Z
  | ReadU256 : read_op Z
  | ReadI256 : read_op Z
  | ReadSelector : read_op Z
  | ReadBoolean : read_op bool
  | ReadFloat : read_op f32
  | ReadAddress : read_op (list Z)
  | ReadBytesBE (count : Z) : read_op (list Z)
  | ReadBytes (len : Z) (zeroStop : bool) : read_op (list Z)
  | ReadBytesWithLength : read_op (list Z)
  | ReadString (len : Z) : read_op string
  | ReadStringWithLength : read_op string
  | ReadAddressArray : read_op (list (list Z))
  | ReadTuple : read_op (list Z)
  | ReadAddressValueTuple : read_op (gmap (list Z) Z)
  | ReadMultiBytesAddressMap : read_op (gmap (list Z) (list (list Z)))
  | ReadTransactionInputs : read_op (list (option TransactionInput))
  | ReadTransactionOutputs : read_op (list (option TransactionOutput)).

Definition run `{Platform} {A} (op : read_op A) : Reader A :=
  match op in read_op T return Reader T with
  | ReadU8 => readU8
  | ReadU16 => readU16
  | ReadU32 le => readU32 le
  | ReadU64 => readU64
  | ReadI64 => readI64
  | ReadU128 => readU128
  | ReadI128 => readI128
  | ReadU256 => readU256
  | ReadI256 => readI256
  | ReadSelector => readSelector
  | ReadBoolean => readBoolean
  | ReadFloat => readFloat
  | ReadAddress => readAddress
  | ReadBytesBE count => readBytesBE count
  | ReadBytes len zeroStop => readBytes len zeroStop
  | ReadBytesWithLength => readBytesWithLength
  | ReadString len => readString len
  | ReadStringWithLength => readStringWithLength
  | ReadAddressArray => readAddressArray
  | ReadTuple => readTuple
  | ReadAddressValueTuple => readAddressValueTuple
  | ReadMultiBytesAddressMap => readMultiBytesAddressMap
  | ReadTransactionInputs => readTransactionInputs
  | ReadTransactionOutputs => readTransactionOutputs
  end.

(** ** What the claims about the reader speak of *)

(** The bytes left in the buffer at the cursor; a cursor that is not a
    position of the buffer has none. *)
Definition remaining (r : BytesReader) : Z :=
  if (0 <=? currentOffset r) && (currentOffset r <=? byteLength (buffer r))
  then byteLength (buffer r) - currentOffset r
  else 0.

(** The cursor moved forward by [n] bytes. *)
Definition advance (r : BytesReader) (n : nat) : BytesReader :=
  {| buffer := buffer r; currentOffset := currentOffset r + Z.of_nat n |}.

(** The next [n] bytes at the cursor. *)
Definition upcoming (r : BytesReader) (n : nat) : list Z :=
  window (buffer r) (currentOffset r) n.

(** The wire types of a fixed width: for each, the number of bytes it takes
    and the value those bytes stand for.  Reads whose extent depends on the
    bytes themselves (length prefixes, zero-stop) have no fixed width. *)
Definition width `{Platform} {A} (op : read_op A) : option nat :=
  match op with
  | ReadU8 | ReadBoolean => Some 1%nat
  | ReadU16 => Some 2%nat
  | ReadU32 _ | ReadSelector | ReadFloat => Some 4%nat
  | ReadU64 | ReadI64 => Some 8%nat
  | ReadU128 | ReadI128 => Some 16%nat
  | ReadU256 | ReadI256 => Some 32%nat
  | ReadAddress => Some ADDRESS_BYTE_LENGTH
  | ReadBytesBE count => Some (Z.to_nat count)
  | ReadBytes len false => Some (Z.to_nat len)
  | _ => None
  end.


(** The reads that open with the bounds check [verifyEnd]. *)
Definition bounds_checked {A} (op : read_op A) : bool :=
  match op with
  | ReadU8 | ReadU16 | ReadU32 _ | ReadU64 | ReadI64
  | ReadU128 | ReadI128 | ReadU256 | ReadI256
  | ReadSelector | ReadBoolean => true
  | _ => false
  end.

(** The fixed-width reads served by one accessor call of the view. *)
Definition single_access {A} (op : read_op A) : bool :=
  match op with
  | ReadU16 | ReadU32 _ | ReadU64 | ReadI64 | ReadSelector | ReadFloat => true
  | _ => false
  end.

(** The reader's invariant: the cursor is a position of the buffer, and the
    buffer's length fits the [i32] it is held in. *)
Definition in_buffer (r : BytesReader) : Prop :=
  0 <= currentOffset r <= byteLength (buffer r).
Definition i32_sized (r : BytesReader) : Prop :=
  byteLength (buffer r) <= I32_MAX.










(** ** PointerEncoder (math/abi.ts) *)

(** What [encodePointer] takes from outside this unit: the hash of
    math/sha256 and the conversion [bytes32] of math/bytes into the pointer
    type of memory/MemorySlotPointer. *)
Class Hashing : Type := {
  MemorySlotPointer : Type;
  Sha256_hash : list Z → list Z;
  bytes32 : list Z → MemorySlotPointer;
}.

(** [a[i]] on a typed array: an index past the end throws. *)
Definition typed_get (a : list Z) (i : nat) : result Z :=
  match a !! i with
  | Some x => Ok x
  | None => Throw RangeError
  end.

Fixpoint encodePointer_loop (n i : nat) (hash finalPointer : list Z) : result (list Z) :=
  match n with
  | O => Ok finalPointer
  | S n' =>
      match typed_get hash i with
      | Ok h => encodePointer_loop n' (S i) hash (<[(i + 2)%nat:=h]> finalPointer)
      | Throw e => Throw e
      end
  end.

(** The 32 bytes [encodePointer] builds before handing them to [bytes32]. *)
Definition encodePointer_bytes `{Hashing} (uniqueIdentifier : Z) (typed : list Z) : result (list Z) :=
  let hash := Sha256_hash typed in
  let finalPointer := replicate 32 0 in
  let finalPointer := <[0%nat:=Z.land uniqueIdentifier 255]> finalPointer in
  let finalPointer := <[1%nat:=Z.land (Z.shiftr uniqueIdentifier 8) 255]> finalPointer in
  encodePointer_loop 30 0 hash finalPointer.

Definition encodePointer `{Hashing} (uniqueIdentifier : Z) (typed : list Z) : result MemorySlotPointer :=
  match encodePointer_bytes uniqueIdentifier typed with
  | Ok finalPointer => Ok (bytes32 finalPointer)
  | Throw e => Throw e
  end.

(** ** Host storage

    Modelled from the spec: the host capability behind [Blockchain] (env is
    not among the sources): [setStorageAt] persists a value at a pointer of a
    namespace, [getStorageAt] queries it with a default, [hasStorageAt]
    queries existence.  [encodePointer_key] is the one-argument
    [encodePointer(key)] the single-level store calls. *)
Class HostStorage (K V : Type) : Type := {
  Host : Type;
  SlotPointer : Type;
  encodePointer_key : K → SlotPointer;
  setStorageAt : Z → SlotPointer → V → Host → Host;
  getStorageAt : Z → SlotPointer → V → Host → V;
  hasStorageAt : Z → SlotPointer → Host → bool;
}.

(** ** SingleLevelStore (memory/AddressMemoryMap.ts) *)
Module AddressMemoryMap.
Section AddressMemoryMap.
Context {K V : Type} `{HostStorage K V}.

Record t : Type := mk { pointer : Z; defaultValue : V }.

Definition set (this : t) (key : K) (value : V) (h : Host) : t * Host :=
  let keyHash := encodePointer_key key in
  (this, setStorageAt (pointer this) keyHash value h).

Definition get (this : t) (key : K) (h : Host) : V :=
  getStorageAt (pointer this) (encodePointer_key key) (defaultValue this) h.

Definition has (this : t) (key : K) (h : Host) : bool :=
  hasStorageAt (pointer this) (encodePointer_key key) h.

Definition delete (this : t) (key : K) (h : Host) : bool * Host :=
  let '(_, h') := set this key (defaultValue this) h in
  (true, h').
End AddressMemoryMap.
Arguments t : clear implicits.
End AddressMemoryMap.

(** ** TwoLevelStore (memory/MultiAddressMemoryMap.ts)

    The class extends [Map<K, Uint8ArrayMerger<V>>]; [entries] is that
    inherited map.  The aggregator class (memory/Uint8ArrayMerger) is not
    among the sources: its type, its constructor and its [set] are taken as
    given. *)
Module MultiAddressMemoryMap.
Section MultiAddressMemoryMap.
Context {K K2 V Merger : Type} `{Countable K}.
Variable new_Uint8ArrayMerger : K → Z → V → Merger.
Variable Uint8ArrayMerger_set : Merger → K2 → V → Merger.

Record t : Type := mk {
  pointer : Z;
  defaultValue : V;
  entries : gmap K Merger;
}.

Definition with_entries (this : t) (m : gmap K Merger) : t :=
  {| pointer := pointer this; defaultValue := defaultValue this; entries := m |}.

Definition createKeyMerger (this : t) (key : K) : t :=
  if bool_decide (is_Some (entries this !! key))
  then this
  else with_entries this
         (<[key:=new_Uint8ArrayMerger key (pointer this) (defaultValue this)]> (entries this)).

Definition get (this : t) (key : K) : option Merger * t :=
  let this := createKeyMerger this key in
  (entries this !! key, this).


Definition set (this : t) (key : K) (value : Merger) : t :=
  let this := createKeyMerger this key in
  with_entries this (<[key:=value]> (entries this)).

Definition has (this : t) (key : K) : bool :=
  bool_decide (is_Some (entries this !! key)).

Definition delete (this : t) (key : K) : bool * t :=
  (bool_decide (is_Some (entries this !! key)),
   with_entries this (base.delete key (entries this))).

Definition clear (this : t) : t := with_entries this ∅.
End MultiAddressMemoryMap.
Arguments t : clear implicits.
Arguments t _ _ _ {_ _}.
End MultiAddressMemoryMap.

(** ** Wire encodings, as the decoder's documentation words them *)

(** [k] bytes of [n], least significant first. *)
Fixpoint le_bytes (k : nat) (n : Z) : list Z :=
  match k with
  | O => []
  | S k' => n mod 256 :: le_bytes k' (n / 256)
  end.

(** Address-to-u256 map: a u16 count, then that many (address, 32 value
    bytes) pairs. *)
Definition encodeAddressValueTuple (pairs : list (list Z * list Z)) : list Z :=
  le_bytes 2 (Z.of_nat (length pairs)) ++ concat (map (λ p, p.1 ++ p.2) pairs).

(** Length-prefixed bytes: a u32 length, then the bytes. *)
Definition encodeBytesWithLength (blob : list Z) : list Z :=
  le_bytes 4 (Z.of_nat (length blob)) ++ blob.

(** Call batch: a u8 count of (address, u8 count of length-prefixed blobs). *)
Definition encodeMultiBytesAddressMap (entries : list (list Z * list (list Z))) : list Z :=
  Z.of_nat (length entries)
    :: concat (map (λ e, e.1 ++ Z.of_nat (length e.2) :: concat (map encodeBytesWithLength e.2))
                   entries).

(** A pair of the address-to-u256 map on the wire: an address of the
    platform's width and the 32 bytes of a u256. *)
Definition sized_pair `{Platform} (p : list Z * list Z) : Prop :=
  length p.1 = ADDRESS_BYTE_LENGTH ∧ length p.2 = 32%nat.

(** An entry of the call batch within the decoder's caps: an address of the
    platform's width and at most 10 blobs, each short enough to be allocated
    (as every blob that fits a buffer of the runtime is). *)
Definition sized_entry `{Platform} (e : list Z * list (list Z)) : Prop :=
  length e.1 = ADDRESS_BYTE_LENGTH ∧ (length e.2 <= 10)%nat
  ∧ Forall (λ blob, Z.of_nat (length blob) <= BLOCK_MAXSIZE) e.2.

(** The bytes [bs] lie in the buffer right at the cursor. *)
Definition ahead (r : BytesReader) (bs : list Z) : Prop :=
  in_buffer r ∧ bs `prefix_of` drop (Z.to_nat (currentOffset r)) (view_data (buffer r)).

(** [m], run with [bs] ahead, returns [v] and consumes exactly [bs]. *)
Definition parses {A} (m : Reader A) (bs : list Z) (v : A) : Prop :=
  ∀ r, i32_sized r → ahead r bs → m r = (Ok v, advance r (length bs)).

(** [m], run with [bs] ahead, throws [e]. *)
Definition rejects {A} (m : Reader A) (bs : list Z) (e : error) : Prop :=
  ∀ r, i32_sized r → ahead r bs → ∃ r', m r = (Throw e, r').

(** [m] throws nothing but bounds errors. *)
Definition fails_in_bounds {A} (m : Reader A) (r : BytesReader) : Prop :=
  ∃ e r', m r = (Throw e, r') ∧ BoundsError e.



(** The outcome is the error of [verifyEnd]. *)
Definition throws_EndOfBuffer {A} (x : result A) : Prop :=
  ∃ size offset, x = Throw (EndOfBuffer size offset).

(** [m] is well behaved towards the cursor: it never writes the buffer;
    started at or before the end of the buffer it never throws the error of
    [verifyEnd], and when it completes the cursor is still at or before the
    end; started inside the buffer, when it completes the cursor is inside
    the buffer. *)
Definition keeps_cursor {A} (m : Reader A) : Prop :=
  ∀ r x r', m r = (x, r') →
    buffer r' = buffer r ∧
    (currentOffset r <= byteLength (buffer r) →
       ¬ throws_EndOfBuffer x ∧
       (is_Ok x → currentOffset r' <= byteLength (buffer r))) ∧
    (i32_sized r → in_buffer r → is_Ok x → in_buffer r').

(** ** Stand-ins used to exercise the statements on concrete inputs *)

(** A platform with 32-byte addresses and a decoder for 7-bit text. *)
Definition ascii_decode (bs : list Z) : string :=
  String.string_of_list_ascii (map (λ b, Ascii.ascii_of_nat (Z.to_nat b)) bs).

Definition test_platform : Platform :=
  {| ADDRESS_BYTE_LENGTH := 32; UTF8_decode := ascii_decode |}.

(** A deterministic stand-in for the hash: the key padded or cut to 32
    bytes; pointers are the 32 bytes themselves. *)
Definition test_hashing : Hashing :=
  {| MemorySlotPointer := list Z;
     Sha256_hash := λ typed, take 32 (typed ++ replicate 32 0);
     bytes32 := λ bs, bs |}.

(** A host that keeps the slots in a finite map keyed by namespace and
    pointer. *)
Definition test_host : HostStorage (list Z) Z :=
  {| Host := gmap (Z * list Z) Z;
     SlotPointer := list Z;
     encodePointer_key := λ key, take 32 (key ++ replicate 32 0);
     setStorageAt := λ ns p v h, <[(ns, p):=v]> h;
     getStorageAt := λ ns p d h, default d (h !! (ns, p));
     hasStorageAt := λ ns p h, bool_decide (is_Some (h !! (ns, p))) |}.

(** ** More wire encodings *)

(** [k] bytes of [n], most significant first. *)
Definition be_bytes (k : nat) (n : Z) : list Z := reverse (le_bytes k n).


(** u256 tuple: a u32 count, then that many 32-byte big-endian values. *)
Definition encodeTuple (values : list Z) : list Z :=
  le_bytes 4 (Z.of_nat (length values)) ++ concat (map (be_bytes 32) values).

(** Address array: a u16 count, then that many addresses. *)
Definition encodeAddressArray (addresses : list (list Z)) : list Z :=
  le_bytes 2 (Z.of_nat (length addresses)) ++ concat addresses.

(** Transaction input: 32-byte id, u8 index, length-prefixed script. *)
Definition encodeTransactionInput (input : TransactionInput) : list Z :=
  txId input ++ outputIndex input :: encodeBytesWithLength (scriptSig input).

Definition encodeTransactionInputs (inputs : list TransactionInput) : list Z :=
  Z.of_nat (length inputs) :: concat (map encodeTransactionInput inputs).

(** Transaction output: u8 index, length-prefixed script, u64 value. *)
Definition encodeTransactionOutput (output : TransactionOutput) : list Z :=
  index output :: encodeBytesWithLength (scriptPubKey output) ++ le_bytes 8 (value output).

Definition encodeTransactionOutputs (outputs : list TransactionOutput) : list Z :=
  Z.of_nat (length outputs) :: concat (map encodeTransactionOutput outputs).

Definition sized_input (input : TransactionInput) : Prop :=
  length (txId input) = 32%nat ∧ Z.of_nat (length (scriptSig input)) <= BLOCK_MAXSIZE.

Definition sized_output (output : TransactionOutput) : Prop :=
  Z.of_nat (length (scriptPubKey output)) <= BLOCK_MAXSIZE
  ∧ 0 <= value output < 18446744073709551616.

(** ** More of what can be said of a read *)

(** The decoders that check a structural constraint of their own. *)
Definition validated {A} (op : read_op A) : bool :=
  match op with
  | ReadAddressValueTuple | ReadMultiBytesAddressMap => true
  | _ => false
  end.

(** The three structural failures of the decoders. *)
Definition structural_error (e : error) : Prop :=
  e = Revert "Duplicate address found in map"
  ∨ e = Revert "Too many contract called."
  ∨ e = Revert "Too many calls.".

(** What a decoder can throw: a bounds error or a structural one. *)
Definition decoding_error (e : error) : Prop := BoundsError e ∨ structural_error e.

(** Whatever [m] throws satisfies [P]. *)
Definition throws_only {A} (P : error → Prop) (m : Reader A) : Prop :=
  ∀ r e r', m r = (Throw e, r') → P e.

(** [m], started inside the buffer, never moves the cursor backwards when it
    completes. *)
Definition moves_forward {A} (m : Reader A) : Prop :=
  ∀ r a r', i32_sized r → in_buffer r → m r = (Ok a, r') →
    currentOffset r <= currentOffset r'.

(** * Properties *)

(** ** Integers and byte sequences *)

Lemma i32_id z : -2147483648 <= z < 2147483648 → i32 z = z.
Proof.
  intros Hz. unfold i32, wrap_signed.
  change (2 ^ (32 - 1)) with 2147483648. change (2 ^ 32) with 4294967296.
  rewrite Z.mod_small; lia.
Qed.

Lemma i32_le z : 0 <= z → i32 z <= z.
Proof.
  intros Hz. unfold i32, wrap_signed.
  change (2 ^ (32 - 1)) with 2147483648. change (2 ^ 32) with 4294967296.
  pose proof (Z.mod_le (z + 2147483648) 4294967296). lia.
Qed.

Lemma le_int_single b : le_int [b] = b.
Proof. unfold le_int. simpl. lia. Qed.

Lemma le_int_cons b bs : le_int (b :: bs) = b + 256 * le_int bs.
Proof. reflexivity. Qed.

Lemma le_bytes_length k n : length (le_bytes k n) = k.
Proof. revert n. induction k; intros; simpl; auto. Qed.

Lemma le_int_le_bytes k n : 0 <= n < 256 ^ Z.of_nat k → le_int (le_bytes k n) = n.
Proof.
  revert n. induction k as [|k IH]; intros n Hn.
  - simpl in *. unfold le_int. simpl. lia.
  - cbn [le_bytes]. rewrite le_int_cons, IH.
    + pose proof (Z.div_mod n 256). lia.
    + rewrite Nat2Z.inj_succ, Z.pow_succ_r in Hn by lia.
      split; [apply Z.div_pos; lia | apply Z.div_lt_upper_bound; lia].
Qed.

(** ** The reader monad *)

Lemma bind_Ok {A B} (m : Reader A) (f : A → Reader B) r a r' :
  m r = (Ok a, r') → bind m f r = f a r'.
Proof. intros Hm. unfold bind. by rewrite Hm. Qed.

Lemma bind_Throw {A B} (m : Reader A) (f : A → Reader B) r e r' :
  m r = (Throw e, r') → bind m f r = (Throw e, r').
Proof. intros Hm. unfold bind. by rewrite Hm. Qed.

Lemma bind_inv {A B} (m : Reader A) (f : A → Reader B) r y r2 :
  bind m f r = (y, r2) →
  (∃ a r1, m r = (Ok a, r1) ∧ f a r1 = (y, r2)) ∨
  (∃ e, m r = (Throw e, r2) ∧ y = Throw e).
Proof.
  unfold bind. destruct (m r) as [[a|e] r1]; intros Hy.
  - left. eauto.
  - right. exists e. by inversion Hy.
Qed.

Lemma advance_0 r : advance r 0 = r.
Proof. destruct r as [v off]. unfold advance. simpl. f_equal. lia. Qed.

Lemma advance_advance r n k : advance (advance r n) k = advance r (n + k).
Proof. unfold advance. simpl. f_equal. lia. Qed.

Lemma i32_sized_advance r n : i32_sized r → i32_sized (advance r n).
Proof. done. Qed.

(** ** Bytes ahead of the cursor *)

Lemma ahead_in_buffer r bs : ahead r bs → in_buffer r.
Proof. by intros [? _]. Qed.

Lemma ahead_nil r : in_buffer r → ahead r [].
Proof. intros Hr. split; [done | apply prefix_nil]. Qed.

Lemma ahead_app_l r bs1 bs2 : ahead r (bs1 ++ bs2) → ahead r bs1.
Proof.
  intros [Hr Hp]. split; [done |].
  etrans; [apply prefix_app_r; reflexivity | exact Hp].
Qed.

Lemma ahead_bound r bs :
  ahead r bs → currentOffset r + Z.of_nat (length bs) <= byteLength (buffer r).
Proof.
  intros [[H0 Hle] Hp]. apply prefix_length in Hp.
  rewrite length_drop in Hp. unfold byteLength in *. lia.
Qed.

Lemma ahead_window r bs :
  ahead r bs → window (buffer r) (currentOffset r) (length bs) = bs.
Proof.
  intros [_ [rest Hp]]. unfold window. rewrite Hp. apply take_app_length.
Qed.

Lemma ahead_in_view r bs :
  ahead r bs → in_view (buffer r) (currentOffset r) (length bs) = true.
Proof.
  intros Ha. pose proof (ahead_bound _ _ Ha) as Hb. destruct Ha as [[H0 _] _].
  unfold in_view. apply andb_true_intro. split; [apply Z.leb_le | apply Z.leb_le]; lia.
Qed.

Lemma ahead_advance r bs1 bs2 :
  ahead r (bs1 ++ bs2) → ahead (advance r (length bs1)) bs2.
Proof.
  intros Ha. pose proof (ahead_bound _ _ Ha) as Hb. rewrite length_app in Hb.
  destruct Ha as [[H0 Hle] [rest Hp]].
  split.
  - unfold in_buffer, advance; simpl. lia.
  - exists rest. unfold advance; simpl.
    replace (Z.to_nat (currentOffset r + Z.of_nat (length bs1)))
      with (Z.to_nat (currentOffset r) + length bs1)%nat by lia.
    rewrite <- drop_drop, Hp, <- app_assoc. apply drop_app_length.
Qed.

Lemma ahead_upcoming r n :
  in_buffer r → currentOffset r + Z.of_nat n <= byteLength (buffer r) →
  ahead r (upcoming r n) ∧ length (upcoming r n) = n.
Proof.
  intros Hr Hn. unfold upcoming, window. split.
  - split; [done |]. apply prefix_take.
  - rewrite length_take, length_drop. unfold in_buffer, byteLength in *. lia.
Qed.

(** ** Reads that succeed: the bytes ahead decide the result *)

Lemma parses_ret {A} (v : A) : parses (ret v) [] v.
Proof. intros r _ _. unfold ret. simpl. by rewrite advance_0. Qed.

Lemma parses_bind {A B} (m : Reader A) (f : A → Reader B) bs1 bs2 v u :
  parses m bs1 v → parses (f v) bs2 u → parses (bind m f) (bs1 ++ bs2) u.
Proof.
  intros Hm Hf r Hs Ha.
  rewrite (bind_Ok _ _ _ _ _ (Hm r Hs (ahead_app_l _ _ _ Ha))).
  rewrite (Hf _ (i32_sized_advance _ _ Hs) (ahead_advance _ _ _ Ha)).
  by rewrite advance_advance, length_app.
Qed.

Lemma parses_bind_nil {A B} (m : Reader A) (f : A → Reader B) bs v u :
  parses m bs v → parses (f v) [] u → parses (bind m f) bs u.
Proof.
  intros Hm Hf. rewrite <- (app_nil_r bs). by eapply parses_bind.
Qed.

Lemma rejects_bind {A B} (m : Reader A) (f : A → Reader B) bs1 bs2 v e :
  parses m bs1 v → rejects (f v) bs2 e → rejects (bind m f) (bs1 ++ bs2) e.
Proof.
  intros Hm Hf r Hs Ha.
  rewrite (bind_Ok _ _ _ _ _ (Hm r Hs (ahead_app_l _ _ _ Ha))).
  apply Hf; [by apply i32_sized_advance | by apply ahead_advance].
Qed.

Lemma rejects_throw {A} bs e : rejects (@throw A e) bs e.
Proof. intros r _ _. by exists r. Qed.

(** The effect of one accessor-based read with [n] bytes ahead. *)
Lemma ahead_cursor_facts r bs n :
  i32_sized r → ahead r bs → Z.of_nat (length bs) = n →
  (currentOffset r >? byteLength (buffer r)) = false ∧
  i32 (currentOffset r + n) = currentOffset r + n.
Proof.
  intros Hs Ha <-. pose proof (ahead_bound _ _ Ha) as Hb.
  destruct Ha as [[H0 Hle] _]. unfold i32_sized, I32_MAX in Hs. split.
  - rewrite Z.gtb_ltb. apply Z.ltb_ge. lia.
  - apply i32_id. lia.
Qed.

Lemma view_get_ahead r bs le :
  ahead r bs →
  view_get (buffer r) (currentOffset r) (length bs) le
  = Ok ((if le then le_int else be_int) bs).
Proof.
  intros Ha. unfold view_get. by rewrite (ahead_in_view _ _ Ha), (ahead_window _ _ Ha).
Qed.

Lemma parses_readU8 b : parses readU8 [b] b.
Proof.
  intros r Hs Ha. destruct (ahead_cursor_facts _ _ 1 Hs Ha eq_refl) as [Hend Hoff].
  pose proof (view_get_ahead _ _ true Ha) as Hget. change (length [b]) with 1%nat in Hget.
  unfold readU8, bind, getOffset, verifyEnd, setOffset, on_buffer, getUint8.
  rewrite Hend. simpl. rewrite Hget, Hoff. by rewrite le_int_single.
Qed.

Lemma parses_readU16 b0 b1 : parses readU16 [b0; b1] (le_int [b0; b1]).
Proof.
  intros r Hs Ha. destruct (ahead_cursor_facts _ _ 2 Hs Ha eq_refl) as [Hend Hoff].
  pose proof (view_get_ahead _ _ true Ha) as Hget. change (length [b0; b1]) with 2%nat in Hget.
  unfold readU16, bind, getOffset, verifyEnd, setOffset, on_buffer, getUint16, ret.
  rewrite Hend. simpl. by rewrite Hget, Hoff.
Qed.

Lemma parses_readU32 le bs :
  length bs = 4%nat → parses (readU32 le) bs ((if le then le_int else be_int) bs).
Proof.
  intros Hl r Hs Ha.
  destruct (ahead_cursor_facts _ _ 4 Hs Ha ltac:(by rewrite Hl)) as [Hend Hoff].
  pose proof (view_get_ahead _ _ le Ha) as Hget. rewrite Hl in *.
  unfold readU32, bind, getOffset, verifyEnd, setOffset, on_buffer, getUint32, ret.
  rewrite Hend. simpl. by rewrite Hget, Hoff.
Qed.

Lemma parses_readU64 bs : length bs = 8%nat → parses readU64 bs (le_int bs).
Proof.
  intros Hl r Hs Ha.
  destruct (ahead_cursor_facts _ _ 8 Hs Ha ltac:(by rewrite Hl)) as [Hend Hoff].
  pose proof (view_get_ahead _ _ true Ha) as Hget. rewrite Hl in *.
  unfold readU64, bind, getOffset, verifyEnd, setOffset, on_buffer, getUint64, ret.
  rewrite Hend. simpl. by rewrite Hget, Hoff.
Qed.



Lemma parses_verifyEnd size : parses (verifyEnd size) [] tt.
Proof.
  intros r Hs Ha. destruct (ahead_cursor_facts _ _ 0 Hs Ha eq_refl) as [Hend _].
  unfold verifyEnd. rewrite Hend. simpl. by rewrite advance_0.
Qed.

Lemma parses_getOffset_bind {B} (f : Z → Reader B) bs u :
  (∀ off, parses (f off) bs u) → parses (bind getOffset f) bs u.
Proof. intros Hf r Hs Ha. unfold bind, getOffset. by apply Hf. Qed.

(** Storing at the end of a growable array appends. *)
Lemma array_set_end {A} (dflt : A) a x : array_set dflt a (length a) x = a ++ [x].
Proof.
  unfold array_set. case_decide; [lia |]. by rewrite Nat.sub_diag.
Qed.

Lemma insert_at_fill {A} (done pad : list A) x y :
  <[length done:=y]> (done ++ x :: pad) = (done ++ [y]) ++ pad.
Proof.
  rewrite insert_app_r_alt by lia. rewrite Nat.sub_diag. simpl. by rewrite <- app_assoc.
Qed.

(** The loop of [readBytesBE]: each byte read is appended. *)
Lemma parses_append_loop bs :
  ∀ acc,
  parses (for_loop (length bs) (length acc)
            (λ i a, b <- readU8 ;; ret (array_set 0 a i b)) acc)
         bs (acc ++ bs).
Proof.
  induction bs as [|b bs IH]; intros acc.
  - rewrite app_nil_r. apply parses_ret.
  - cbn [length for_loop]. eapply (parses_bind _ _ [b] bs).
    + eapply parses_bind_nil; [apply parses_readU8 | apply parses_ret].
    + rewrite array_set_end.
      replace (S (length acc)) with (length (acc ++ [b])) by (rewrite length_app; simpl; lia).
      replace (acc ++ b :: bs) with ((acc ++ [b]) ++ bs) by (by rewrite <- app_assoc).
      apply IH.
Qed.

(** The loop of [readAddress] and of [readBytes] without zero-stop: each
    byte read overwrites the next slot of a preallocated array. *)
Lemma parses_fill_loop bs :
  ∀ done pad, length pad = length bs →
  parses (for_loop (length bs) (length done)
            (λ i a, b <- readU8 ;; ret (<[i:=b]> a)) (done ++ pad))
         bs (done ++ bs).
Proof.
  induction bs as [|b bs IH]; intros done pad Hpad.
  - destruct pad; [|done]. apply parses_ret.
  - destruct pad as [|x pad]; [done|]. injection Hpad as Hpad.
    cbn [length for_loop]. eapply (parses_bind _ _ [b] bs).
    + eapply parses_bind_nil; [apply parses_readU8 | apply parses_ret].
    + rewrite insert_at_fill.
      replace (S (length done)) with (length (done ++ [b])) by (rewrite length_app; simpl; lia).
      replace (done ++ b :: bs) with ((done ++ [b]) ++ bs) by (by rewrite <- app_assoc).
      by apply IH.
Qed.

Lemma parses_readBytesBE count bs :
  Z.to_nat count = length bs → parses (readBytesBE count) bs bs.
Proof.
  intros Hc. unfold readBytesBE. rewrite Hc. apply (parses_append_loop bs []).
Qed.

(** The big-integer reads: the entry check, then the bytes one by one. *)
Lemma parses_checked_bytesBE {A} (size : Z → Z) (count : Z) (conv : list Z → A) bs :
  Z.to_nat count = length bs →
  parses (off <- getOffset ;; verifyEnd (size off) ;;;
          next <- readBytesBE count ;; ret (conv next)) bs (conv bs).
Proof.
  intros Hc. apply parses_getOffset_bind; intros off.
  eapply (parses_bind _ _ [] bs); [apply parses_verifyEnd |].
  eapply parses_bind_nil; [by apply parses_readBytesBE | apply parses_ret].
Qed.

Lemma parses_readU256 bs : length bs = 32%nat → parses readU256 bs (u256_fromBytesBE bs).
Proof. intros Hl. by apply parses_checked_bytesBE. Qed.

Lemma parses_readU128 bs : length bs = 16%nat → parses readU128 bs (u128_fromBytesBE bs).
Proof. intros Hl. by apply parses_checked_bytesBE. Qed.



Lemma parses_readBoolean b : parses readBoolean [b] (negb (b =? 0)).
Proof.
  unfold readBoolean. eapply parses_bind_nil; [apply parses_readU8 | apply parses_ret].
Qed.

Lemma parses_readAddress `{Platform} bs :
  length bs = ADDRESS_BYTE_LENGTH → parses readAddress bs bs.
Proof.
  intros Hl. unfold readAddress. rewrite <- Hl.
  apply (parses_fill_loop bs [] (replicate (length bs) 0)). apply length_replicate.
Qed.

(** [readBytes]: with no zero byte among them (or outside zero-stop mode)
    the bytes fill the array... *)
Lemma parses_readBytes_loop_full zeroStop bs :
  (zeroStop = true → Forall (λ b, b ≠ 0) bs) →
  ∀ done pad, length pad = length bs →
  parses (readBytes_loop zeroStop (length bs) (length done) (done ++ pad)) bs (done ++ bs).
Proof.
  induction bs as [|b bs IH]; intros Hnz done pad Hpad.
  - destruct pad; [|done]. apply parses_ret.
  - destruct pad as [|x pad]; [done|]. injection Hpad as Hpad.
    cbn [length readBytes_loop]. eapply (parses_bind _ _ [b] bs); [apply parses_readU8 |].
    assert (zeroStop && (b =? 0) = false) as ->.
    { destruct zeroStop; [|done]. simpl. apply Z.eqb_neq.
      specialize (Hnz eq_refl). by inversion Hnz. }
    rewrite insert_at_fill.
    replace (S (length done)) with (length (done ++ [b])) by (rewrite length_app; simpl; lia).
    replace (done ++ b :: bs) with ((done ++ [b]) ++ bs) by (by rewrite <- app_assoc).
    apply IH; [|done]. intros Hz. specialize (Hnz Hz). by inversion Hnz.
Qed.

(** ... and in zero-stop mode the first zero byte ends the read: it is
    consumed, the bytes before it are returned, nothing after it is read. *)
Lemma parses_readBytes_loop_zero bs :
  Forall (λ b, b ≠ 0) bs →
  ∀ n done pad, (length bs < n)%nat → (length bs < length pad)%nat →
  parses (readBytes_loop true n (length done) (done ++ pad)) (bs ++ [0]) (done ++ bs).
Proof.
  induction bs as [|b bs IH]; intros Hnz n done pad Hn Hpad.
  - destruct n as [|n]; [simpl in Hn; lia |].
    cbn [readBytes_loop]. eapply parses_bind_nil; [apply parses_readU8 |].
    simpl. rewrite take_app_length, app_nil_r. apply parses_ret.
  - destruct n as [|n]; [simpl in Hn; lia |].
    destruct pad as [|x pad]; [simpl in Hpad; lia |]. simpl in Hn, Hpad.
    inversion Hnz as [|? ? Hb Hbs]; subst.
    cbn [readBytes_loop]. eapply (parses_bind _ _ [b] (bs ++ [0])); [apply parses_readU8 |].
    assert (true && (b =? 0) = false) as -> by (simpl; by apply Z.eqb_neq).
    rewrite insert_at_fill.
    replace (S (length done)) with (length (done ++ [b])) by (rewrite length_app; simpl; lia).
    replace (done ++ b :: bs) with ((done ++ [b]) ++ bs) by (by rewrite <- app_assoc).
    apply IH; [done | lia | lia].
Qed.

Lemma new_Uint8Array_Ok len :
  len <= BLOCK_MAXSIZE → new_Uint8Array len = Ok (replicate (Z.to_nat len) 0).
Proof.
  intros Hl. unfold new_Uint8Array.
  assert ((len >? BLOCK_MAXSIZE) = false) as -> by (rewrite Z.gtb_ltb; apply Z.ltb_ge; lia).
  done.
Qed.

Lemma new_Uint8Array_Throw len :
  BLOCK_MAXSIZE < len → new_Uint8Array len = Throw RangeError.
Proof.
  intros Hl. unfold new_Uint8Array.
  assert ((len >? BLOCK_MAXSIZE) = true) as -> by (rewrite Z.gtb_ltb; apply Z.ltb_lt; lia).
  done.
Qed.

Lemma new_Array_Ok {A} (empty : A) len :
  len <= 268435455 → new_Array empty len = Ok (replicate (Z.to_nat len) empty).
Proof.
  intros Hl. unfold new_Array. change (Z.shiftr BLOCK_MAXSIZE 2) with 268435455.
  assert ((len >? 268435455) = false) as -> by (rewrite Z.gtb_ltb; apply Z.ltb_ge; lia).
  done.
Qed.

Lemma parses_lift_bind {A B} (x : result A) (a : A) (f : A → Reader B) bs v :
  x = Ok a → parses (f a) bs v → parses (bind (lift x) f) bs v.
Proof. intros -> Hf r Hs Ha. unfold bind, lift. by apply Hf. Qed.

Lemma parses_readBytes_full len zeroStop bs :
  Z.to_nat len = length bs → len <= BLOCK_MAXSIZE →
  (zeroStop = true → Forall (λ b, b ≠ 0) bs) →
  parses (readBytes len zeroStop) bs bs.
Proof.
  intros Hl Hmax Hnz. unfold readBytes.
  eapply parses_lift_bind; [by apply new_Uint8Array_Ok|]. rewrite Hl.
  apply (parses_readBytes_loop_full zeroStop bs Hnz [] (replicate (length bs) 0)).
  apply length_replicate.
Qed.

Lemma parses_readBytes_zero len bs :
  Z.of_nat (length bs) < len → len <= BLOCK_MAXSIZE → Forall (λ b, b ≠ 0) bs →
  parses (readBytes len true) (bs ++ [0]) bs.
Proof.
  intros Hl Hmax Hnz. unfold readBytes.
  eapply parses_lift_bind; [by apply new_Uint8Array_Ok|].
  apply (parses_readBytes_loop_zero bs Hnz (Z.to_nat len) [] (replicate (Z.to_nat len) 0)).
  - lia.
  - rewrite length_replicate. lia.
Qed.


(** ** Reads that fail: too few bytes remain *)

Lemma remaining_nonneg r : 0 <= remaining r.
Proof.
  unfold remaining. destruct (0 <=? currentOffset r) eqn:H0; simpl; [|lia].
  destruct (currentOffset r <=? byteLength (buffer r)) eqn:H1; [|lia].
  apply Z.leb_le in H1. lia.
Qed.

Lemma remaining_pos r :
  0 < remaining r →
  in_buffer r ∧ remaining r = byteLength (buffer r) - currentOffset r.
Proof.
  unfold remaining, in_buffer.
  destruct (0 <=? currentOffset r) eqn:H0; simpl; [|lia].
  destruct (currentOffset r <=? byteLength (buffer r)) eqn:H1; [|lia].
  apply Z.leb_le in H0, H1. lia.
Qed.

Lemma remaining_in_buffer r :
  in_buffer r → remaining r = byteLength (buffer r) - currentOffset r.
Proof.
  intros [H0 H1]. unfold remaining.
  apply Z.leb_le in H0, H1. by rewrite H0, H1.
Qed.

Lemma remaining_advance r : 0 < remaining r → remaining (advance r 1) = remaining r - 1.
Proof.
  intros Hr. destruct (remaining_pos _ Hr) as [[H0 H1] Heq].
  rewrite Heq in *. rewrite remaining_in_buffer; unfold in_buffer, advance; simpl; lia.
Qed.

Lemma in_view_short v off n r :
  v = buffer r → off = currentOffset r →
  Z.of_nat n > remaining r → in_view v off n = false.
Proof.
  intros -> -> Hn. unfold in_view. apply andb_false_iff.
  destruct (decide (0 <= currentOffset r)) as [H0|H0]; [|left; apply Z.leb_gt; lia].
  right. apply Z.leb_gt.
  destruct (decide (currentOffset r <= byteLength (buffer r))) as [H1|H1]; [|lia].
  rewrite remaining_in_buffer in Hn by done. lia.
Qed.

Lemma view_get_short r n le :
  Z.of_nat n > remaining r →
  view_get (buffer r) (currentOffset r) n le = Throw RangeError.
Proof.
  intros Hn. unfold view_get. by rewrite (in_view_short _ _ n r eq_refl eq_refl Hn).
Qed.

Lemma fails_in_bounds_bind_l {A B} (m : Reader A) (f : A → Reader B) r :
  fails_in_bounds m r → fails_in_bounds (bind m f) r.
Proof.
  intros (e & r' & Hm & He). exists e, r'. split; [by apply bind_Throw | done].
Qed.

Lemma fails_in_bounds_bind_r {A B} (m : Reader A) (f : A → Reader B) r a r' :
  m r = (Ok a, r') → fails_in_bounds (f a) r' → fails_in_bounds (bind m f) r.
Proof.
  intros Hm (e & r2 & Hf & He). exists e, r2. split; [|done].
  by rewrite (bind_Ok _ _ _ _ _ Hm).
Qed.

Ltac thrown_in_bounds := do 2 eexists; split; [reflexivity | done].

(** One byte: read when a byte remains, a bounds error otherwise. *)
Lemma readU8_outcome r :
  i32_sized r →
  (0 < remaining r ∧ ∃ b, upcoming r 1 = [b] ∧ readU8 r = (Ok b, advance r 1)) ∨
  (remaining r = 0 ∧ fails_in_bounds readU8 r).
Proof.
  intros Hs. destruct (decide (0 < remaining r)) as [Hpos|Hz].
  - left. split; [done|]. destruct (remaining_pos _ Hpos) as [Hin Heq].
    destruct (ahead_upcoming r 1 Hin ltac:(lia)) as [Ha Hl].
    destruct (upcoming r 1) as [|b [|? ?]] eqn:Hup; try done.
    exists b. split; [done|]. by apply parses_readU8.
  - right. pose proof (remaining_nonneg r). split; [lia|].
    unfold fails_in_bounds, readU8, bind, getOffset, verifyEnd, setOffset, on_buffer, getUint8.
    destruct (currentOffset r >? byteLength (buffer r)); [thrown_in_bounds|].
    simpl. rewrite view_get_short by lia. thrown_in_bounds.
Qed.

Lemma byte_loop_fails {A} (store : nat → A → Z → A) n :
  ∀ i a r, i32_sized r → Z.of_nat n > remaining r →
  fails_in_bounds (for_loop n i (λ i a, b <- readU8 ;; ret (store i a b)) a) r.
Proof.
  induction n as [|n IH]; intros i a r Hs Hn.
  - pose proof (remaining_nonneg r). lia.
  - cbn [for_loop]. destruct (readU8_outcome r Hs) as [[Hpos (b & _ & Hb)]|[_ Hf]].
    + apply (fails_in_bounds_bind_r _ _ r (store i a b) (advance r 1)).
      * by rewrite (bind_Ok _ _ _ _ _ Hb).
      * apply IH; [done|]. rewrite remaining_advance by done. lia.
    + by do 2 apply fails_in_bounds_bind_l.
Qed.

Lemma readBytes_loop_fails n :
  ∀ i bytes r, i32_sized r → Z.of_nat n > remaining r →
  fails_in_bounds (readBytes_loop false n i bytes) r.
Proof.
  induction n as [|n IH]; intros i bytes r Hs Hn.
  - pose proof (remaining_nonneg r). lia.
  - cbn [readBytes_loop]. destruct (readU8_outcome r Hs) as [[Hpos (b & _ & Hb)]|[_ Hf]].
    + eapply fails_in_bounds_bind_r; [exact Hb|]. simpl.
      apply IH; [done|]. rewrite remaining_advance by done. lia.
    + by apply fails_in_bounds_bind_l.
Qed.

Lemma checked_bytesBE_fails {A} (size : Z → Z) (count : Z) (conv : list Z → A) r :
  i32_sized r → Z.of_nat (Z.to_nat count) > remaining r →
  fails_in_bounds (off <- getOffset ;; verifyEnd (size off) ;;;
                   next <- readBytesBE count ;; ret (conv next)) r.
Proof.
  intros Hs Hn. unfold bind at 1. unfold getOffset.
  destruct (verifyEnd (size (currentOffset r)) r) as [[[]|e] r1] eqn:Hv.
  - assert (r1 = r) as ->.
    { unfold verifyEnd in Hv. by destruct (_ >? _); inversion Hv. }
    eapply fails_in_bounds_bind_r; [exact Hv|].
    apply fails_in_bounds_bind_l. by apply byte_loop_fails.
  - apply fails_in_bounds_bind_l. exists e, r1. split; [done|].
    unfold verifyEnd in Hv. by destruct (_ >? _); inversion Hv.
Qed.

(** Every fixed-width read fails within bounds when its width exceeds what
    remains. *)
Lemma fixed_width_fails `{Platform} {A} (op : read_op A) w r :
  width op = Some w → i32_sized r → Z.of_nat w > remaining r →
  fails_in_bounds (run op) r.
Proof.
  intros Hw Hs Hn.
  assert (∀ n le, Z.of_nat n > remaining r →
            view_get (buffer r) (currentOffset r) n le = Throw RangeError) as Hshort
    by (intros; by apply view_get_short).
  destruct op; try destruct zeroStop; simpl in Hw; try discriminate;
    injection Hw as <-; cbn [run].
  - destruct (readU8_outcome r Hs) as [[? _]|[_ ?]]; [lia | done].
  - unfold fails_in_bounds, readU16, bind, getOffset, verifyEnd, on_buffer, getUint16.
    destruct (_ >? _); [thrown_in_bounds|]. simpl. rewrite Hshort by done. thrown_in_bounds.
  - unfold fails_in_bounds, readU32, bind, getOffset, verifyEnd, on_buffer, getUint32.
    destruct (_ >? _); [thrown_in_bounds|]. simpl. rewrite Hshort by done. thrown_in_bounds.
  - unfold fails_in_bounds, readU64, bind, getOffset, verifyEnd, on_buffer, getUint64.
    destruct (_ >? _); [thrown_in_bounds|]. simpl. rewrite Hshort by done. thrown_in_bounds.
  - unfold fails_in_bounds, readI64, bind, getOffset, verifyEnd, on_buffer, getInt64.
    destruct (_ >? _); [thrown_in_bounds|]. simpl. rewrite Hshort by done. thrown_in_bounds.
  - by apply checked_bytesBE_fails.
  - by apply checked_bytesBE_fails.
  - by apply checked_bytesBE_fails.
  - by apply checked_bytesBE_fails.
  - unfold fails_in_bounds, readSelector, readU32, bind, getOffset, verifyEnd, on_buffer, getUint32.
    destruct (_ >? _); [thrown_in_bounds|]. simpl. rewrite Hshort by done. thrown_in_bounds.
  - unfold readBoolean. apply fails_in_bounds_bind_l.
    destruct (readU8_outcome r Hs) as [[? _]|[_ ?]]; [lia | done].
  - unfold fails_in_bounds, readFloat, bind, getOffset, on_buffer, getFloat32.
    simpl. rewrite Hshort by done. thrown_in_bounds.
  - by apply byte_loop_fails.
  - by apply byte_loop_fails.
  - unfold readBytes. destruct (decide (len <= BLOCK_MAXSIZE)) as [Hmax|Hmax].
    + eapply fails_in_bounds_bind_r; [unfold lift; by rewrite new_Uint8Array_Ok|].
      by apply readBytes_loop_fails.
    + apply fails_in_bounds_bind_l. unfold lift.
      rewrite new_Uint8Array_Throw by lia. thrown_in_bounds.
Qed.

(** ** The cursor under every read *)

Lemma view_get_Ok v off n le z :
  view_get v off n le = Ok z → 0 <= off ∧ off + Z.of_nat n <= byteLength v.
Proof.
  unfold view_get, in_view. destruct (0 <=? off) eqn:H0; [|done].
  destruct (off + Z.of_nat n <=? byteLength v) eqn:H1; [|done].
  intros _. apply Z.leb_le in H0, H1. lia.
Qed.

Lemma is_Ok_Throw {A} (e : error) : ¬ is_Ok (@Throw A e).
Proof. by intros [a Ha]. Qed.

Lemma Ok_not_EndOfBuffer {A} (a : A) : ¬ throws_EndOfBuffer (Ok a).
Proof. by intros (s & o & Heq). Qed.

Lemma RangeError_not_EndOfBuffer {A} : ¬ throws_EndOfBuffer (@Throw A RangeError).
Proof. by intros (s & o & Heq). Qed.

Lemma Revert_not_EndOfBuffer {A} msg : ¬ throws_EndOfBuffer (@Throw A (Revert msg)).
Proof. by intros (s & o & Heq). Qed.

Lemma throws_EndOfBuffer_retype {A B} e :
  throws_EndOfBuffer (@Throw A e) → throws_EndOfBuffer (@Throw B e).
Proof. intros (s & o & Heq). exists s, o. by inversion Heq. Qed.

Lemma keeps_cursor_ret {A} (a : A) : keeps_cursor (ret a).
Proof.
  intros r x r' Hm. inversion Hm; subst. split; [done|]. split; [|done].
  intros Hle. split; [apply Ok_not_EndOfBuffer | by intros _].
Qed.

Lemma keeps_cursor_revert {A} msg : keeps_cursor (@throw A (Revert msg)).
Proof.
  intros r x r' Hm. inversion Hm; subst. split; [done|]. split.
  - intros Hle. split; [apply Revert_not_EndOfBuffer | by intros _].
  - intros _ _ Hok. by apply is_Ok_Throw in Hok.
Qed.

Lemma keeps_cursor_bind {A B} (m : Reader A) (f : A → Reader B) :
  keeps_cursor m → (∀ a, keeps_cursor (f a)) → keeps_cursor (bind m f).
Proof.
  intros Hm Hf r y r2 Hb.
  destruct (bind_inv _ _ _ _ _ Hb) as [(a & r1 & Hma & Hfa)|(e & Hme & ->)].
  - destruct (Hm _ _ _ Hma) as (Hb1 & Hle1 & Hin1).
    destruct (Hf a _ _ _ Hfa) as (Hb2 & Hle2 & Hin2).
    assert (is_Ok (Ok a)) as Hoka by by exists a.
    split; [congruence|]. split.
    + intros Hle. destruct (Hle1 Hle) as [_ Hle1'].
      rewrite Hb1 in Hle2. destruct (Hle2 (Hle1' Hoka)) as [Hne Hle2'].
      split; [done|]. intros Hok. by apply Hle2'.
    + intros Hs Hin Hok. apply Hin2; [| by apply Hin1 | done].
      unfold i32_sized. rewrite Hb1. exact Hs.
  - destruct (Hm _ _ _ Hme) as (Hb1 & Hle1 & Hin1).
    split; [done|]. split.
    + intros Hle. destruct (Hle1 Hle) as [Hne _].
      split; [intros Ht; apply Hne; by eapply throws_EndOfBuffer_retype|].
      intros Hok. by apply is_Ok_Throw in Hok.
    + intros _ _ Hok. by apply is_Ok_Throw in Hok.
Qed.

Lemma keeps_cursor_for_loop {A} (body : nat → A → Reader A) n :
  (∀ i a, keeps_cursor (body i a)) → ∀ i a, keeps_cursor (for_loop n i body a).
Proof.
  intros Hbody. induction n as [|n IH]; intros i a.
  - apply keeps_cursor_ret.
  - cbn [for_loop]. apply keeps_cursor_bind; [apply Hbody | intros a'; apply IH].
Qed.

Lemma keeps_cursor_if {A} (c : bool) (m1 m2 : Reader A) :
  keeps_cursor m1 → keeps_cursor m2 → keeps_cursor (if c then m1 else m2).
Proof. by destruct c. Qed.

Lemma view_get_Throw v off n le e : view_get v off n le = Throw e → e = RangeError.
Proof. unfold view_get. destruct (in_view v off n); [done|]. by intros [= <-]. Qed.

(** A read made of the entry check (or none), one accessor call and the
    move of the cursor behind the bytes it took. *)
Lemma keeps_cursor_access {A} (check : Z → Reader unit) (n : Z)
    (get : DataView → Z → result A) :
  0 <= n →
  (∀ off, check off = ret tt ∨ ∃ size, check off = verifyEnd size) →
  (∀ v off, match get v off with
            | Ok _ => 0 <= off ∧ off + n <= byteLength v
            | Throw e => e = RangeError
            end) →
  keeps_cursor (off <- getOffset ;;
                check off ;;;
                value <- on_buffer (λ v, get v off) ;;
                setOffset (i32 (off + n)) ;;;
                ret value).
Proof.
  intros Hn Hcheck Hget r x r' Hm.
  unfold bind, getOffset, on_buffer, setOffset, ret in Hm.
  assert (check (currentOffset r) r = (Ok tt, r) ∨
          (currentOffset r > byteLength (buffer r) ∧
           ∃ size, check (currentOffset r) r = (Throw (EndOfBuffer size (currentOffset r)), r)))
    as [Hc|[Hgt [size Hc]]].
  { destruct (Hcheck (currentOffset r)) as [->|[size ->]]; [by left|].
    unfold verifyEnd. destruct (currentOffset r >? byteLength (buffer r)) eqn:Hgt; [|by left].
    right. rewrite Z.gtb_ltb in Hgt. apply Z.ltb_lt in Hgt. split; [lia | by eauto]. }
  - rewrite Hc in Hm. specialize (Hget (buffer r) (currentOffset r)).
    destruct (get (buffer r) (currentOffset r)) as [a|e]; inversion Hm; subst; simpl.
    + destruct Hget as [H0 Hle]. split; [done|]. split.
      * intros _. split; [apply Ok_not_EndOfBuffer|]. intros _.
        pose proof (i32_le (currentOffset r + n)). lia.
      * intros Hs _ _. unfold in_buffer; simpl. unfold i32_sized, I32_MAX in Hs.
        rewrite i32_id; lia.
    + split; [done|]. split.
      * intros _. split; [apply RangeError_not_EndOfBuffer|].
        intros Hok. by apply is_Ok_Throw in Hok.
      * intros _ _ Hok. by apply is_Ok_Throw in Hok.
  - rewrite Hc in Hm. inversion Hm; subst. split; [done|]. split.
    + intros Hle. lia.
    + intros _ _ Hok. by apply is_Ok_Throw in Hok.
Qed.

Lemma get_view_facts n le v off :
  match view_get v off n le with
  | Ok _ => 0 <= off ∧ off + Z.of_nat n <= byteLength v
  | Throw e => e = RangeError
  end.
Proof.
  destruct (view_get v off n le) eqn:Hg;
    [by eapply view_get_Ok | by eapply view_get_Throw].
Qed.

Lemma keeps_cursor_readU16 : keeps_cursor readU16.
Proof.
  apply (keeps_cursor_access (λ off, verifyEnd (i32 (off + 2))) 2 (λ v off, getUint16 v off true));
    [lia | by eauto | intros; apply (get_view_facts 2)].
Qed.

Lemma keeps_cursor_readU32 le : keeps_cursor (readU32 le).
Proof.
  apply (keeps_cursor_access (λ off, verifyEnd (i32 (off + 4))) 4 (λ v off, getUint32 v off le));
    [lia | by eauto | intros; apply (get_view_facts 4)].
Qed.

Lemma keeps_cursor_readU64 : keeps_cursor readU64.
Proof.
  apply (keeps_cursor_access (λ off, verifyEnd (i32 (off + 8))) 8 (λ v off, getUint64 v off true));
    [lia | by eauto | intros; apply (get_view_facts 8)].
Qed.

Lemma keeps_cursor_readI64 : keeps_cursor readI64.
Proof.
  apply (keeps_cursor_access (λ off, verifyEnd (i32 (off + 8))) 8 (λ v off, getInt64 v off true));
    [lia | by eauto |].
  intros v off. unfold getInt64. pose proof (get_view_facts 8 true v off).
  by destruct (view_get v off 8 true).
Qed.

Lemma keeps_cursor_readFloat : keeps_cursor readFloat.
Proof.
  intros r x r' Hm.
  apply (keeps_cursor_access (λ off, ret tt) 4 (λ v off, getFloat32 v off true));
    [lia | by eauto | | exact Hm].
  intros v off. unfold getFloat32. pose proof (get_view_facts 4 true v off).
  by destruct (view_get v off 4 true).
Qed.

Lemma keeps_cursor_readU8 : keeps_cursor readU8.
Proof.
  intros r x r' Hm.
  unfold readU8, bind, getOffset, verifyEnd, setOffset, on_buffer, getUint8 in Hm.
  destruct (currentOffset r >? byteLength (buffer r)) eqn:Hgt.
  - rewrite Z.gtb_ltb in Hgt. apply Z.ltb_lt in Hgt. inversion Hm; subst.
    split; [done|]. split; [lia|]. intros _ _ Hok. by apply is_Ok_Throw in Hok.
  - simpl in Hm. pose proof (get_view_facts 1 true (buffer r) (currentOffset r)) as Hget.
    destruct (view_get (buffer r) (currentOffset r) 1 true) as [a|e]; inversion Hm; subst; simpl.
    + destruct Hget as [H0 Hle]. split; [done|]. split.
      * intros _. split; [apply Ok_not_EndOfBuffer|]. intros _.
        pose proof (i32_le (currentOffset r + 1)). lia.
      * intros Hs _ _. unfold in_buffer; simpl. unfold i32_sized, I32_MAX in Hs.
        rewrite i32_id; lia.
    + split; [done|]. split.
      * intros _. split; [apply RangeError_not_EndOfBuffer|].
        intros Hok. by apply is_Ok_Throw in Hok.
      * intros _ _ Hok. by apply is_Ok_Throw in Hok.
Qed.

Lemma keeps_cursor_getOffset : keeps_cursor getOffset.
Proof.
  intros r x r' Hm. inversion Hm; subst. split; [done|]. split; [|done].
  intros Hle. split; [apply Ok_not_EndOfBuffer | by intros _].
Qed.

Lemma keeps_cursor_verifyEnd size : keeps_cursor (verifyEnd size).
Proof.
  intros r x r' Hm. unfold verifyEnd in Hm.
  destruct (currentOffset r >? byteLength (buffer r)) eqn:Hgt; inversion Hm; subst.
  - rewrite Z.gtb_ltb in Hgt. apply Z.ltb_lt in Hgt.
    split; [done|]. split; [lia|]. intros _ _ Hok. by apply is_Ok_Throw in Hok.
  - split; [done|]. split; [|done].
    intros Hle. split; [apply Ok_not_EndOfBuffer | by intros _].
Qed.

Ltac keeps_cursor_step :=
  first
    [ apply keeps_cursor_ret
    | apply keeps_cursor_revert
    | apply keeps_cursor_getOffset
    | apply keeps_cursor_verifyEnd
    | apply keeps_cursor_readU8
    | apply keeps_cursor_readU16
    | apply keeps_cursor_readU32
    | apply keeps_cursor_readU64
    | apply keeps_cursor_readI64
    | apply keeps_cursor_readFloat
    | apply keeps_cursor_for_loop; intros
    | apply keeps_cursor_if
    | apply keeps_cursor_bind; [|intros] ].

Lemma keeps_cursor_readBytesBE count : keeps_cursor (readBytesBE count).
Proof. unfold readBytesBE. repeat keeps_cursor_step. Qed.

Lemma keeps_cursor_readU128 : keeps_cursor readU128.
Proof. unfold readU128. repeat (keeps_cursor_step || apply keeps_cursor_readBytesBE). Qed.

Lemma keeps_cursor_readI128 : keeps_cursor readI128.
Proof. unfold readI128. repeat (keeps_cursor_step || apply keeps_cursor_readBytesBE). Qed.

Lemma keeps_cursor_readU256 : keeps_cursor readU256.
Proof. unfold readU256. repeat (keeps_cursor_step || apply keeps_cursor_readBytesBE). Qed.

Lemma keeps_cursor_readI256 : keeps_cursor readI256.
Proof. unfold readI256. repeat (keeps_cursor_step || apply keeps_cursor_readBytesBE). Qed.

Lemma keeps_cursor_readBytes_loop zeroStop n :
  ∀ i bytes, keeps_cursor (readBytes_loop zeroStop n i bytes).
Proof.
  induction n as [|n IH]; intros i bytes; cbn [readBytes_loop].
  - apply keeps_cursor_ret.
  - apply keeps_cursor_bind; [apply keeps_cursor_readU8 | intros byte].
    apply keeps_cursor_if; [apply keeps_cursor_ret | apply IH].
Qed.

Lemma keeps_cursor_lift {A} (x : result A) :
  (∀ e, x = Throw e → e = RangeError) → keeps_cursor (lift x).
Proof.
  intros Hx r y r' Hm. inversion Hm; subst. split; [done|]. split.
  - intros Hle. split; [|by intros _].
    intros (s & o & Heq). by specialize (Hx _ Heq).
  - by intros _ Hin _.
Qed.

Lemma new_Uint8Array_throws len e : new_Uint8Array len = Throw e → e = RangeError.
Proof. unfold new_Uint8Array. destruct (_ >? _); [by intros [= <-] | done]. Qed.

Lemma new_Array_throws {A} (empty : A) len e : new_Array empty len = Throw e → e = RangeError.
Proof. unfold new_Array. destruct (_ >? _); [by intros [= <-] | done]. Qed.

Lemma keeps_cursor_readBytes len zeroStop : keeps_cursor (readBytes len zeroStop).
Proof.
  unfold readBytes. apply keeps_cursor_bind.
  - apply keeps_cursor_lift, new_Uint8Array_throws.
  - intros bytes. apply keeps_cursor_readBytes_loop.
Qed.

Lemma keeps_cursor_new_Array {A} (empty : A) len : keeps_cursor (lift (new_Array empty len)).
Proof. apply keeps_cursor_lift, new_Array_throws. Qed.

Lemma keeps_cursor_readBytesWithLength : keeps_cursor readBytesWithLength.
Proof.
  unfold readBytesWithLength. repeat (apply keeps_cursor_readBytes || keeps_cursor_step).
Qed.

Lemma keeps_cursor_readAddress `{Platform} : keeps_cursor readAddress.
Proof. unfold readAddress. repeat keeps_cursor_step. Qed.

Ltac keeps_cursor_solve :=
  repeat first
    [ apply keeps_cursor_readBytesBE
    | apply keeps_cursor_readU128
    | apply keeps_cursor_readI128
    | apply keeps_cursor_readU256
    | apply keeps_cursor_readI256
    | apply keeps_cursor_readBytes
    | apply keeps_cursor_readBytesWithLength
    | apply keeps_cursor_readAddress
    | apply keeps_cursor_new_Array
    | keeps_cursor_step ].

(** Every read operation is well behaved towards the cursor. *)
Lemma keeps_cursor_run `{Platform} {A} (op : read_op A) : keeps_cursor (run op).
Proof.
  destruct op; cbn [run];
    unfold readSelector, readBoolean, readString, readStringWithLength, readString,
      readAddressArray, readTuple, readAddressValueTuple, readMultiBytesAddressMap,
      readTransactionInputs, readTransactionOutputs;
    keeps_cursor_solve.
Qed.

(** A single-access read that throws has not moved the cursor. *)
Lemma single_access_Throw `{Platform} {A} (op : read_op A) r x r' :
  single_access op = true → run op r = (x, r') → is_Throw x → r' = r.
Proof.
  intros Hsa Hm [e ->].
  destruct op; try discriminate; cbn [run] in Hm;
    unfold readSelector, readU16, readU32, readU64, readI64, readFloat,
      bind, getOffset, verifyEnd, on_buffer, setOffset, ret,
      getUint16, getUint32, getUint64, getInt64, getFloat32 in Hm;
    repeat match type of Hm with
           | context [if ?c then _ else _] => destruct c
           | context [match view_get ?v ?o ?n ?l with _ => _ end] => destruct (view_get v o n l)
           end;
    by inversion Hm.
Qed.

(** ** The contract of the typed reads *)

(** Over [0x05, 0x2A, 0, 0, 0], [readU8] then [readU32(true)] yield 5 and 42. *)
Example readU8_then_readU32 :
  (x <- readU8 ;; y <- readU32 true ;; ret (x, y)) (new_BytesReader [5; 42; 0; 0; 0])
  = (Ok (5, 42), advance (new_BytesReader [5; 42; 0; 0; 0]) 5).
Proof. reflexivity. Qed.
































(** ** The invariant of the cursor *)

(** C3 (as amended).  From a cursor inside the buffer, a read never writes
    the buffer and, when it completes, leaves the cursor inside the buffer
    (the offset does not exceed the buffer length); a read served by a single
    accessor call ([readU16], [readU32], [readSelector], [readU64],
    [readI64], [readFloat]) that fails leaves the cursor where it was. *)
Theorem cursor_invariant `{Platform} {A} (op : read_op A) (r : BytesReader) x r' :
  i32_sized r → in_buffer r → run op r = (x, r') →
  buffer r' = buffer r ∧
  (is_Ok x → 0 <= currentOffset r' <= byteLength (buffer r')) ∧
  (single_access op = true → is_Throw x → r' = r).
Proof.
  intros Hs Hin Hm. destruct (keeps_cursor_run op _ _ _ Hm) as (Hb & _ & Hk).
  split; [done|]. split.
  - intros Hok. by apply Hk.
  - intros Hsa Hx. by eapply single_access_Throw.
Qed.

Lemma cursor_invariant_witness :
  let r := new_BytesReader [7; 1; 2] in
  let out := run (H:=test_platform) ReadU16 r in
  buffer out.2 = buffer r ∧
  (is_Ok out.1 → 0 <= currentOffset out.2 <= byteLength (buffer out.2)) ∧
  (single_access ReadU16 = true → is_Throw out.1 → out.2 = r).
Proof.
  intros r out.
  apply (cursor_invariant (H:=test_platform) ReadU16 r out.1 out.2).
  - unfold i32_sized, I32_MAX. vm_compute. discriminate.
  - unfold in_buffer. vm_compute. split; discriminate.
  - reflexivity.
Defined.

(** C3 as first stated fails: a read that consumes byte by byte has moved the
    cursor when it runs out of bytes.  Two bytes asked of a one-byte buffer:
    the read throws, and the cursor is no longer at 0. *)
Lemma failing_read_moves_cursor :
  let r := new_BytesReader [7] in
  let out := run (H:=test_platform) (ReadBytesBE 2) r in
  in_buffer r ∧ out.1 = Throw RangeError ∧ currentOffset r = 0 ∧ currentOffset out.2 = 2.
Proof.
  intros r out. split; [|by vm_compute].
  unfold in_buffer. vm_compute. split; discriminate.
Qed.

(** ** The bounds check *)

(** C4 as first stated fails in its "only if": two bytes asked where one
    remains.  The check passes (0 is not past the end of a one-byte buffer),
    and the read still raises a bounds error, the one of the accessor,
    with the offset before the read not greater than the buffer length. *)
Lemma bounds_error_with_offset_inside :
  let r := new_BytesReader [7] in
  let out := run (H:=test_platform) ReadU16 r in
  bounds_checked ReadU16 = true ∧
  verifyEnd 2 r = (Ok tt, r) ∧
  out.1 = Throw RangeError ∧ BoundsError RangeError ∧
  currentOffset r <= byteLength (buffer r).
Proof. intros r out. repeat split; vm_compute; discriminate. Qed.

(** C4 (as amended).  For every read that opens with the bounds check: the
    read throws the error of the check exactly when the offset before the
    read is strictly greater than the buffer length; the check itself passes
    exactly when the offset is at most the buffer length, whatever size
    (offset + requested width) it is handed; and a read that passes the
    check while its width exceeds what remains is refused by the accessor
    of the view, with a [RangeError]. *)
Theorem bounds_check_inspects_offset_only `{Platform} {A} (op : read_op A) (r : BytesReader) :
  bounds_checked op = true →
  (throws_EndOfBuffer (run op r).1 ↔ currentOffset r > byteLength (buffer r)) ∧
  (∀ size, (verifyEnd size r).1 = Ok tt ↔ currentOffset r <= byteLength (buffer r)) ∧
  (∀ w, width op = Some w → i32_sized r →
     currentOffset r <= byteLength (buffer r) → Z.of_nat w > remaining r →
     ∃ r', run op r = (Throw RangeError, r')).
Proof.
  intros Hbc. split; [split|split]; cycle 3.
  { intros w Hw Hs Hle Hgt.
    destruct (fixed_width_fails op w r Hw Hs Hgt) as (e & r' & Hm & He).
    destruct (keeps_cursor_run op _ _ _ Hm) as (_ & Hk & _).
    destruct (Hk Hle) as [Hne _].
    destruct e as [size offset| |msg]; [|by exists r'|done].
    destruct Hne. by exists size, offset. }
  - intros Ht. destruct (decide (currentOffset r <= byteLength (buffer r))) as [Hle|]; [|lia].
    destruct (run op r) as [x r'] eqn:Hm.
    destruct (keeps_cursor_run op _ _ _ Hm) as (_ & Hk & _).
    by destruct (Hk Hle) as [Hne _].
  - intros Hgt.
    assert ((currentOffset r >? byteLength (buffer r)) = true) as Hb
      by (rewrite Z.gtb_ltb; apply Z.ltb_lt; lia).
    destruct op; try discriminate; cbn [run];
      unfold readSelector, readBoolean, readU8, readU16, readU32, readU64, readI64,
        readU128, readI128, readU256, readI256, bind, getOffset, verifyEnd;
      rewrite Hb; simpl; by eexists _, _.
  - intros size. unfold verifyEnd.
    destruct (currentOffset r >? byteLength (buffer r)) eqn:Hgt; simpl;
      rewrite Z.gtb_ltb in Hgt; [apply Z.ltb_lt in Hgt | apply Z.ltb_ge in Hgt];
      split; (done || lia).
Qed.

Lemma bounds_check_inspects_offset_only_witness :
  let r := mkBytesReader (mkDataView [1; 2; 3]) 2 in
  (throws_EndOfBuffer (run (H:=test_platform) ReadU256 r).1
     ↔ currentOffset r > byteLength (buffer r)) ∧
  (∀ size, (verifyEnd size r).1 = Ok tt ↔ currentOffset r <= byteLength (buffer r)) ∧
  (∀ w, width (H:=test_platform) ReadU256 = Some w → i32_sized r →
     currentOffset r <= byteLength (buffer r) → Z.of_nat w > remaining r →
     ∃ r', run (H:=test_platform) ReadU256 r = (Throw RangeError, r')).
Proof.
  intros r. apply (bounds_check_inspects_offset_only (H:=test_platform) ReadU256 r).
  reflexivity.
Defined.

(** ** Zero-stopped bytes and strings *)

(** C1 (as amended).  For a declared count [len] that the runtime can
    allocate, [readBytes(len, zeroStop = true)] returns the bytes before the
    first zero byte, and the cursor has then consumed those bytes and the
    zero byte, not the declared count; when none of the [len] bytes is zero
    it returns them all and the cursor has consumed [len] bytes.  For a
    longer count the allocation of the array throws, before a byte is
    read. *)
Theorem readBytes_zeroStop (p : list Z) (len : Z) (r : BytesReader) :
  Forall (λ b, b ≠ 0) p → i32_sized r →
  (len <= BLOCK_MAXSIZE → Z.of_nat (length p) < len → ahead r (p ++ [0]) →
     readBytes len true r = (Ok p, advance r (length p + 1))) ∧
  (len <= BLOCK_MAXSIZE → Z.of_nat (length p) = len → ahead r p →
     readBytes len true r = (Ok p, advance r (length p))) ∧
  (BLOCK_MAXSIZE < len → readBytes len true r = (Throw RangeError, r)).
Proof.
  intros Hnz Hs. split; [|split].
  - intros Hmax Hl Ha. rewrite (parses_readBytes_zero len p Hl Hmax Hnz r Hs Ha).
    by rewrite length_app.
  - intros Hmax Hl Ha. apply parses_readBytes_full; [lia | done | done | done | done].
  - intros Hbig. unfold readBytes, bind, lift. by rewrite new_Uint8Array_Throw.
Qed.

Lemma readBytes_zeroStop_witness :
  let r := new_BytesReader [1; 2; 0; 4; 5] in
  readBytes 5 true r = (Ok [1; 2], advance r 3).
Proof.
  intros r.
  refine (proj1 (readBytes_zeroStop [1; 2] 5 r _ _) _ _ _).
  - repeat constructor; discriminate.
  - unfold i32_sized, I32_MAX. vm_compute. discriminate.
  - unfold BLOCK_MAXSIZE. lia.
  - reflexivity.
  - split.
    + unfold in_buffer. vm_compute. split; discriminate.
    + by exists [4; 5].
Defined.

(** C1 as first stated fails on its own scenario: over [1,2,0,4,5] the two
    bytes before the zero are returned, and the cursor stands at 3, not 5. *)
Lemma readBytes_zeroStop_consumes_to_zero :
  let r := new_BytesReader [1; 2; 0; 4; 5] in
  let out := readBytes 5 true r in
  out.1 = Ok [1; 2] ∧ currentOffset out.2 = currentOffset r + 3
  ∧ currentOffset out.2 ≠ currentOffset r + 5.
Proof. intros r out. by vm_compute. Qed.

(** C10.  [readStringWithLength]: after the u16 prefix, a zero byte among the
    prefixed bytes ends the string: the text is decoded from the bytes before
    the zero, and the cursor has consumed the prefix, those bytes and the
    zero, whatever the prefixed length (a u16, so always short enough for
    the array of [readBytes] to be allocated). *)
Theorem readStringWithLength_zero_truncated `{Platform}
    (c0 c1 : Z) (p : list Z) (r : BytesReader) :
  Forall (λ b, b ≠ 0) p → Z.of_nat (length p) < le_int [c0; c1] →
  le_int [c0; c1] < 65536 →
  i32_sized r → ahead r ([c0; c1] ++ p ++ [0]) →
  readStringWithLength r = (Ok (UTF8_decode p), advance r (2 + length p + 1)).
Proof.
  intros Hnz Hl Hu16 Hs Ha.
  assert (parses readStringWithLength ([c0; c1] ++ p ++ [0]) (UTF8_decode p)) as Hp.
  { unfold readStringWithLength, readString.
    eapply parses_bind; [apply parses_readU16|].
    eapply parses_bind_nil; [|apply parses_ret].
    apply parses_readBytes_zero; [done | unfold BLOCK_MAXSIZE; lia | done]. }
  rewrite (Hp r Hs Ha). by rewrite !length_app.
Qed.

Lemma readStringWithLength_zero_truncated_witness :
  let r := new_BytesReader [5; 0; 72; 105; 0; 33; 33] in
  readStringWithLength (H:=test_platform) r = (Ok "Hi"%string, advance r 5).
Proof.
  intros r.
  apply (readStringWithLength_zero_truncated (H:=test_platform) 5 0 [72; 105] r).
  - repeat constructor; discriminate.
  - reflexivity.
  - reflexivity.
  - unfold i32_sized, I32_MAX. vm_compute. discriminate.
  - split.
    + unfold in_buffer. vm_compute. split; discriminate.
    + by exists [33; 33].
Defined.

(** ** The address-to-u256 map *)

Lemma rejects_bind_l {A B} (m : Reader A) (f : A → Reader B) bs e :
  rejects m bs e → rejects (bind m f) bs e.
Proof.
  intros Hm r Hs Ha. destruct (Hm r Hs Ha) as [r' Hr]. exists r'. by apply bind_Throw.
Qed.

Lemma rejects_app {A} (m : Reader A) bs1 bs2 e :
  rejects m bs1 e → rejects m (bs1 ++ bs2) e.
Proof. intros Hm r Hs Ha. apply Hm; [done | by eapply ahead_app_l]. Qed.

Section AddressValueTuple.
Context `{Platform}.

(** One turn of the loop of [readAddressValueTuple]. *)
Local Abbreviation turn :=
  (λ (_ : nat) (result : gmap (list Z) Z),
     address <- readAddress ;;
     value <- readU256 ;;
     if AddressMap_has result address
     then throw (Revert "Duplicate address found in map")
     else ret (AddressMap_set result address value)).

Local Abbreviation decoded pairs :=
  (map (λ p : list Z * list Z, (p.1, u256_fromBytesBE p.2)) pairs).

(** The addresses of [pairs] are distinct and none is bound in [result]. *)
Local Abbreviation fresh result pairs :=
  (NoDup pairs.*1 ∧ ∀ k, k ∈ pairs.*1 → result !! k = None).

Lemma AddressMap_has_true {V} (m : gmap (list Z) V) k :
  AddressMap_has m k = true ↔ is_Some (m !! k).
Proof. unfold AddressMap_has. by rewrite bool_decide_eq_true. Qed.

Lemma AddressMap_has_false {V} (m : gmap (list Z) V) k :
  AddressMap_has m k = false ↔ m !! k = None.
Proof.
  unfold AddressMap_has. rewrite bool_decide_eq_false. by rewrite eq_None_not_Some.
Qed.

Lemma tuple_turn_new (i : nat) (result : gmap (list Z) Z) (p : list Z * list Z) :
  sized_pair p → result !! p.1 = None →
  parses (turn i result) (p.1 ++ p.2) (<[p.1:=u256_fromBytesBE p.2]> result).
Proof.
  intros [Ha Hv] Hnone.
  eapply parses_bind; [by apply parses_readAddress|].
  eapply parses_bind_nil; [by apply parses_readU256|].
  apply AddressMap_has_false in Hnone. rewrite Hnone. apply parses_ret.
Qed.

Lemma tuple_turn_duplicate (i : nat) (result : gmap (list Z) Z) (p : list Z * list Z) :
  sized_pair p → is_Some (result !! p.1) →
  rejects (turn i result) (p.1 ++ p.2) (Revert "Duplicate address found in map").
Proof.
  intros [Ha Hv] Hsome.
  eapply rejects_bind; [by apply parses_readAddress|].
  rewrite <- (app_nil_r p.2).
  eapply rejects_bind; [by apply parses_readU256|].
  apply AddressMap_has_true in Hsome. rewrite Hsome. apply rejects_throw.
Qed.

Lemma tuple_fresh_cons (result : gmap (list Z) Z) (p : list Z * list Z) pairs :
  fresh result (p :: pairs) ↔
  result !! p.1 = None ∧ fresh (<[p.1:=u256_fromBytesBE p.2]> result) pairs.
Proof.
  rewrite fmap_cons, NoDup_cons. split.
  - intros [[Hnotin Hnd] Hnone]. split; [apply Hnone; left|].
    split; [done|]. intros k Hk. rewrite lookup_insert_ne.
    + apply Hnone. by right.
    + by intros <-.
  - intros [Hp [Hnd Hnone]]. split; [split; [|done]|].
    + intros Hin. specialize (Hnone _ Hin). by rewrite lookup_insert_eq in Hnone.
    + intros k Hk. apply elem_of_cons in Hk as [Heq|Hk]; [by subst k|].
      specialize (Hnone _ Hk). destruct (decide (p.1 = k)) as [Heq|Hne]; [subst k|].
      * by rewrite lookup_insert_eq in Hnone.
      * by rewrite lookup_insert_ne in Hnone.
Qed.

Lemma tuple_loop_fresh (pairs : list (list Z * list Z)) :
  ∀ (i : nat) (result : gmap (list Z) Z), Forall sized_pair pairs → fresh result pairs →
  parses (for_loop (length pairs) i turn result)
         (concat (map (λ p, p.1 ++ p.2) pairs))
         (list_to_map (decoded pairs) ∪ result).
Proof.
  induction pairs as [|p pairs IH]; intros i result Hws Hfresh.
  - simpl. rewrite (left_id_L ∅ (∪)). apply parses_ret.
  - inversion Hws as [|? ? Hp Hps]; subst.
    apply tuple_fresh_cons in Hfresh as [Hnone Hfresh].
    cbn [length for_loop map concat]. eapply parses_bind; [by apply tuple_turn_new|].
    replace (list_to_map (decoded (p :: pairs)) ∪ result)
      with (list_to_map (decoded pairs) ∪ <[p.1:=u256_fromBytesBE p.2]> result).
    + by apply IH.
    + cbn. rewrite <- insert_union_l. symmetry. apply insert_union_r.
      apply not_elem_of_list_to_map_1.
      destruct Hfresh as [_ Hf]. intros Hin.
      assert (p.1 ∈ pairs.*1) as Hin'.
      { by rewrite <- list_fmap_compose in Hin. }
      specialize (Hf _ Hin'). by rewrite lookup_insert_eq in Hf.
Qed.

Lemma tuple_loop_duplicate (pairs : list (list Z * list Z)) :
  ∀ (i : nat) (result : gmap (list Z) Z), Forall sized_pair pairs → ¬ fresh result pairs →
  rejects (for_loop (length pairs) i turn result)
          (concat (map (λ p, p.1 ++ p.2) pairs))
          (Revert "Duplicate address found in map").
Proof.
  induction pairs as [|p pairs IH]; intros i result Hws Hdup.
  - exfalso. apply Hdup. split; [constructor | by intros k Hk%elem_of_nil].
  - inversion Hws as [|? ? Hp Hps]; subst.
    cbn [length for_loop map concat].
    destruct (result !! p.1) as [v|] eqn:Hlook.
    + apply rejects_bind_l, rejects_app.
      apply (tuple_turn_duplicate i result p); [done | by exists v].
    + eapply rejects_bind; [by apply tuple_turn_new|].
      apply IH; [done|]. intros Hfresh. apply Hdup. by apply tuple_fresh_cons.
Qed.

(** C6.  A u16 count followed by that many (address, u256) pairs: when
    the same address stands in two of the pairs the decoder throws its
    validation error ([Revert('Duplicate address found in map')]); when the
    addresses are distinct it returns the map of the decoded pairs, the
    cursor behind the last pair. *)
Theorem readAddressValueTuple_rejects_duplicates
    (pairs : list (list Z * list Z)) (r : BytesReader) :
  Z.of_nat (length pairs) < 65536 → Forall sized_pair pairs →
  i32_sized r → ahead r (encodeAddressValueTuple pairs) →
  (∀ i j a v1 v2, i ≠ j → pairs !! i = Some (a, v1) → pairs !! j = Some (a, v2) →
     ∃ e r', readAddressValueTuple r = (Throw e, r')
             ∧ e = Revert "Duplicate address found in map" ∧ ValidationError e) ∧
  (NoDup pairs.*1 →
     readAddressValueTuple r
     = (Ok (list_to_map (map (λ p, (p.1, u256_fromBytesBE p.2)) pairs)),
        advance r (length (encodeAddressValueTuple pairs)))).
Proof.
  intros Hn Hws Hs Ha.
  assert (Z.to_nat (le_int (le_bytes 2 (Z.of_nat (length pairs)))) = length pairs) as Hcount.
  { rewrite le_int_le_bytes; [lia|]. change (256 ^ Z.of_nat 2) with 65536. lia. }
  cbn [le_bytes] in Hcount. split.
  - intros i j a v1 v2 Hij Hi Hj.
    assert (¬ fresh (∅ : gmap (list Z) Z) pairs) as Hdup.
    { intros [Hnd _]. apply Hij. eapply NoDup_lookup; [exact Hnd | |].
      - by rewrite list_lookup_fmap, Hi.
      - by rewrite list_lookup_fmap, Hj. }
    assert (rejects readAddressValueTuple (encodeAddressValueTuple pairs)
              (Revert "Duplicate address found in map")) as Hrej.
    { unfold readAddressValueTuple, encodeAddressValueTuple.
      eapply rejects_bind; [apply parses_readU16|].
      rewrite Hcount. by apply tuple_loop_duplicate. }
    destruct (Hrej r Hs Ha) as [r' Hr]. eexists _, r'. by rewrite Hr.
  - intros Hnd.
    assert (parses readAddressValueTuple (encodeAddressValueTuple pairs)
              (list_to_map (decoded pairs))) as Hp.
    { unfold readAddressValueTuple, encodeAddressValueTuple.
      eapply parses_bind; [apply parses_readU16|].
      rewrite Hcount.
      rewrite <- (right_id_L ∅ (∪) (list_to_map (decoded pairs))).
      apply tuple_loop_fresh; [done|]. split; [done|]. intros k _. apply lookup_empty. }
    by rewrite (Hp r Hs Ha).
Qed.
End AddressValueTuple.

Lemma readAddressValueTuple_rejects_duplicates_witness :
  let a := replicate 32 7 in
  let b := replicate 32 9 in
  let v1 := replicate 31 0 ++ [1] in
  let v2 := replicate 31 0 ++ [2] in
  (∃ e r', readAddressValueTuple (H:=test_platform)
             (new_BytesReader (encodeAddressValueTuple [(a, v1); (b, v1); (a, v2)]))
           = (Throw e, r')
           ∧ e = Revert "Duplicate address found in map" ∧ ValidationError e)
  ∧ readAddressValueTuple (H:=test_platform)
      (new_BytesReader (encodeAddressValueTuple [(a, v1); (b, v2)]))
    = (Ok (list_to_map [(a, 1); (b, 2)]),
       advance (new_BytesReader (encodeAddressValueTuple [(a, v1); (b, v2)])) 130).
Proof.
  intros a b v1 v2. split.
  - refine (proj1 (readAddressValueTuple_rejects_duplicates (H:=test_platform)
                     [(a, v1); (b, v1); (a, v2)] _ _ _ _ _) 0%nat 2%nat a v1 v2 _ _ _).
    + vm_compute. reflexivity.
    + repeat constructor.
    + unfold i32_sized, I32_MAX. vm_compute. discriminate.
    + split; [unfold in_buffer; vm_compute; split; discriminate | reflexivity].
    + discriminate.
    + reflexivity.
    + reflexivity.
  - refine (proj2 (readAddressValueTuple_rejects_duplicates (H:=test_platform)
                     [(a, v1); (b, v2)] _ _ _ _ _) _).
    + vm_compute. reflexivity.
    + repeat constructor.
    + unfold i32_sized, I32_MAX. vm_compute. discriminate.
    + split; [unfold in_buffer; vm_compute; split; discriminate | reflexivity].
    + apply NoDup_cons. split; [|apply NoDup_singleton].
      intros Hin%list_elem_of_singleton. subst a b. discriminate Hin.
Defined.

(** ** The call batch *)

Lemma parses_readBytesWithLength blob :
  Z.of_nat (length blob) <= BLOCK_MAXSIZE →
  parses readBytesWithLength (encodeBytesWithLength blob) blob.
Proof.
  intros Hl. unfold readBytesWithLength, encodeBytesWithLength.
  eapply parses_bind; [apply parses_readU32, le_bytes_length|].
  cbn beta. rewrite le_int_le_bytes
    by (change (256 ^ Z.of_nat 4) with 4294967296; unfold BLOCK_MAXSIZE in Hl; lia).
  apply parses_readBytes_full; [lia | done | done].
Qed.

(** Binding the entries one after the other: a later entry replaces an
    earlier one with the same address. *)
Lemma bind_entries_notin {V} (entries : list (list Z * V)) (m : gmap (list Z) V) a :
  a ∉ entries.*1 → foldl (λ m e, <[e.1:=e.2]> m) m entries !! a = m !! a.
Proof.
  revert m. induction entries as [|e entries IH]; intros m Hnotin; [done|].
  rewrite fmap_cons, not_elem_of_cons in Hnotin. destruct Hnotin as [Hne Hnotin].
  cbn [foldl]. rewrite IH by done. by rewrite lookup_insert_ne.
Qed.

Lemma bind_entries_last {V} (before after : list (list Z * V)) (m : gmap (list Z) V) a v :
  a ∉ after.*1 →
  foldl (λ m e, <[e.1:=e.2]> m) m (before ++ (a, v) :: after) !! a = Some v.
Proof.
  intros Hnotin. rewrite foldl_app. cbn [foldl].
  rewrite bind_entries_notin by done. apply lookup_insert_eq.
Qed.

Section MultiBytesAddressMap.
Context `{Platform}.

Local Abbreviation collect :=
  (λ (_ : nat) (calls : list (list Z)),
     response <- readBytesWithLength ;; ret (calls ++ [response])).

Local Abbreviation turn :=
  (λ (_ : nat) (map : gmap (list Z) (list (list Z))),
     address <- readAddress ;;
     responseSize <- readU8 ;;
     if responseSize >? 10 then throw (Revert "Too many calls.") else
     calls <- for_loop (Z.to_nat responseSize) 0 collect [] ;;
     ret (AddressMap_set map address calls)).

Local Abbreviation encodeEntry :=
  (λ e : list Z * list (list Z),
     e.1 ++ Z.of_nat (length e.2) :: concat (map encodeBytesWithLength e.2)).

Lemma batch_collect (blobs : list (list Z)) :
  ∀ (i : nat) (calls : list (list Z)),
  Forall (λ blob, Z.of_nat (length blob) <= BLOCK_MAXSIZE) blobs →
  parses (for_loop (length blobs) i collect calls)
         (concat (map encodeBytesWithLength blobs)) (calls ++ blobs).
Proof.
  induction blobs as [|blob blobs IH]; intros i calls Hl.
  - rewrite app_nil_r. apply parses_ret.
  - inversion Hl as [|? ? Hb Hbs]; subst.
    cbn [length for_loop map concat]. eapply parses_bind.
    + eapply parses_bind_nil; [by apply parses_readBytesWithLength | apply parses_ret].
    + replace (calls ++ blob :: blobs) with ((calls ++ [blob]) ++ blobs)
        by (by rewrite <- app_assoc).
      by apply IH.
Qed.

Lemma batch_turn (i : nat) (map : gmap (list Z) (list (list Z)))
    (e : list Z * list (list Z)) :
  sized_entry e → parses (turn i map) (encodeEntry e) (<[e.1:=e.2]> map).
Proof.
  intros (Ha & Hcap & Hl).
  eapply parses_bind; [by apply parses_readAddress|].
  eapply (parses_bind _ _ [Z.of_nat (length e.2)]); [apply parses_readU8|].
  assert ((Z.of_nat (length e.2) >? 10) = false) as ->
    by (rewrite Z.gtb_ltb; apply Z.ltb_ge; lia).
  rewrite Nat2Z.id.
  eapply parses_bind_nil; [by apply (batch_collect e.2 0 []) | apply parses_ret].
Qed.

Lemma batch_loop (entries : list (list Z * list (list Z))) :
  ∀ (i : nat) (map : gmap (list Z) (list (list Z))),
  Forall sized_entry entries →
  parses (for_loop (length entries) i turn map)
         (concat (List.map encodeEntry entries))
         (foldl (λ m e, <[e.1:=e.2]> m) map entries).
Proof.
  induction entries as [|e entries IH]; intros i map Hws.
  - apply parses_ret.
  - inversion Hws as [|? ? He Hes]; subst.
    cbn [length for_loop List.map concat foldl].
    eapply parses_bind; [by apply batch_turn | by apply IH].
Qed.

(** C9.  A call batch within the caps (at most 8 addresses, at most 10
    blobs each) decodes with no check for repeated addresses: the decoder
    completes, and the map it returns binds each address to the blobs of
    the last entry that carries it, an earlier entry with the same address
    being overwritten. *)
Theorem readMultiBytesAddressMap_last_entry_wins
    (entries : list (list Z * list (list Z))) (r : BytesReader) :
  (length entries <= 8)%nat → Forall sized_entry entries →
  i32_sized r → ahead r (encodeMultiBytesAddressMap entries) →
  ∃ m, readMultiBytesAddressMap r
       = (Ok m, advance r (length (encodeMultiBytesAddressMap entries)))
     ∧ (∀ before a blobs after,
          entries = before ++ (a, blobs) :: after → a ∉ after.*1 →
          m !! a = Some blobs)
     ∧ (∀ a, a ∉ entries.*1 → m !! a = None).
Proof.
  intros Hcap Hws Hs Ha.
  exists (foldl (λ m e, <[e.1:=e.2]> m) ∅ entries). split; [|split].
  - assert (parses readMultiBytesAddressMap (encodeMultiBytesAddressMap entries)
              (foldl (λ m e, <[e.1:=e.2]> m) ∅ entries)) as Hp.
    { unfold readMultiBytesAddressMap, encodeMultiBytesAddressMap.
      eapply (parses_bind _ _ [Z.of_nat (length entries)]); [apply parses_readU8|].
      assert ((Z.of_nat (length entries) >? 8) = false) as ->
        by (rewrite Z.gtb_ltb; apply Z.ltb_ge; lia).
      rewrite Nat2Z.id. by apply batch_loop. }
    by rewrite (Hp r Hs Ha).
  - intros before a blobs after -> Hnotin. by apply bind_entries_last.
  - intros a Hnotin. rewrite bind_entries_notin by done. apply lookup_empty.
Qed.
End MultiBytesAddressMap.

Lemma readMultiBytesAddressMap_last_entry_wins_witness :
  let a := replicate 32 7 in
  let entries := [(a, [[1; 2]; [3]]); (a, [[4]])] in
  let r := new_BytesReader (encodeMultiBytesAddressMap entries) in
  ∃ m, readMultiBytesAddressMap (H:=test_platform) r
       = (Ok m, advance r (length (encodeMultiBytesAddressMap entries)))
     ∧ (∀ before a blobs after,
          entries = before ++ (a, blobs) :: after → a ∉ after.*1 →
          m !! a = Some blobs)
     ∧ (∀ a, a ∉ entries.*1 → m !! a = None).
Proof.
  intros a entries r.
  apply (readMultiBytesAddressMap_last_entry_wins (H:=test_platform) entries r).
  - vm_compute. lia.
  - repeat match goal with
           | |- Forall _ _ => constructor
           | |- sized_entry _ => unfold sized_entry
           | |- _ ∧ _ => split
           end; vm_compute; first [reflexivity | lia | discriminate].
  - unfold i32_sized, I32_MAX. vm_compute. discriminate.
  - split; [unfold in_buffer; vm_compute; split; discriminate | reflexivity].
Defined.

(** ** The pointer encoder *)

Lemma land_255 z : Z.land z 255 = z mod 256.
Proof. change 255 with (Z.ones 8). by rewrite Z.land_ones by lia. Qed.

Lemma shiftr_8 z : Z.shiftr z 8 = z / 256.
Proof. by rewrite Z.shiftr_div_pow2 by lia. Qed.

(** The copy loop of [encodePointer]: [n] bytes of the hash from index [i]
    land at index [i + 2] of the pointer. *)
Lemma encodePointer_loop_copies n :
  ∀ i hash finalPointer,
  (i + n <= length hash)%nat → (i + 2 + n <= length finalPointer)%nat →
  encodePointer_loop n i hash finalPointer
  = Ok (take (i + 2) finalPointer ++ take n (drop i hash)
        ++ drop (i + 2 + n) finalPointer).
Proof.
  induction n as [|n IH]; intros i hash fp Hh Hf.
  - cbn [encodePointer_loop take]. rewrite Nat.add_0_r. by rewrite app_nil_l, take_drop.
  - cbn [encodePointer_loop]. unfold typed_get.
    destruct (lookup_lt_is_Some_2 hash i ltac:(lia)) as [h Hlook]. rewrite Hlook.
    rewrite IH by (rewrite ?length_insert; lia).
    f_equal. replace (S i + 2)%nat with (S (i + 2)) by lia.
    rewrite (take_S_r _ _ h) by (apply list_lookup_insert_eq; lia).
    rewrite take_insert_ge by lia. rewrite drop_insert_lt by lia.
    rewrite (drop_S hash h i Hlook). cbn [take]. rewrite <- app_assoc. cbn [app].
    replace (S (i + 2) + n)%nat with (i + 2 + S n)%nat by lia. done.
Qed.

(** C5.  [encodePointer] is a function of its two arguments alone (it reads
    nothing else, so equal arguments give equal results); given a hash of at
    least 30 bytes and a 16-bit namespace id, the 32 bytes it hands to
    [bytes32] are the id in little-endian followed by the first 30 bytes of
    the hash of the key; another id over the same key changes the first two
    bytes only. *)
Theorem encodePointer_layout `{Hashing} (ns ns' : Z) (k : list Z) :
  (30 <= length (Sha256_hash k))%nat → 0 <= ns < 65536 →
  ∃ fp fp',
    encodePointer_bytes ns k = Ok fp ∧ encodePointer ns k = Ok (bytes32 fp) ∧
    encodePointer_bytes ns' k = Ok fp' ∧ encodePointer ns' k = Ok (bytes32 fp') ∧
    length fp = 32%nat ∧
    take 2 fp = le_bytes 2 ns ∧ le_int (take 2 fp) = ns ∧
    drop 2 fp = take 30 (Sha256_hash k) ∧
    drop 2 fp' = drop 2 fp.
Proof.
  intros Hh Hns.
  assert (∀ id, encodePointer_bytes id k
                = Ok ([Z.land id 255; Z.land (Z.shiftr id 8) 255]
                      ++ take 30 (Sha256_hash k))) as Hbytes.
  { intros id. unfold encodePointer_bytes.
    rewrite encodePointer_loop_copies by (rewrite ?length_insert, ?length_replicate; lia || done).
    rewrite drop_0. cbn. by rewrite app_nil_r. }
  assert (take 2 ([Z.land ns 255; Z.land (Z.shiftr ns 8) 255] ++ take 30 (Sha256_hash k))
          = le_bytes 2 ns) as Htake.
  { cbn. rewrite !land_255, shiftr_8. done. }
  eexists _, _. unfold encodePointer. rewrite !Hbytes.
  repeat split.
  - rewrite length_app, length_take. cbn [length]. lia.
  - exact Htake.
  - rewrite Htake. apply le_int_le_bytes. change (256 ^ Z.of_nat 2) with 65536. lia.
Qed.

Lemma encodePointer_layout_witness :
  let k := [98; 97; 108; 97; 110; 99; 101] in
  ∃ fp fp',
    encodePointer_bytes (H:=test_hashing) 1 k = Ok fp ∧
    encodePointer (H:=test_hashing) 1 k = Ok (@bytes32 test_hashing fp) ∧
    encodePointer_bytes (H:=test_hashing) 2 k = Ok fp' ∧
    encodePointer (H:=test_hashing) 2 k = Ok (@bytes32 test_hashing fp') ∧
    length fp = 32%nat ∧
    take 2 fp = le_bytes 2 1 ∧ le_int (take 2 fp) = 1 ∧
    drop 2 fp = take 30 (@Sha256_hash test_hashing k) ∧
    drop 2 fp' = drop 2 fp.
Proof.
  intros k. apply (encodePointer_layout (H:=test_hashing) 1 2 k).
  - vm_compute. lia.
  - lia.
Defined.

(** ** The single-level store *)

(** C7.  Over a host whose [getStorageAt] after [setStorageAt] returns the
    stored value and whose [hasStorageAt] reports the slot present:
    [delete(key)] returns true and persists the table's default value at the
    key's pointer; a [get] that follows returns the default value and [has]
    still reports true. *)
Theorem delete_is_tombstone {K V} `{HostStorage K V}
    (this : AddressMemoryMap.t V) (key : K) (h : Host) :
  (∀ ns p v d h, getStorageAt ns p d (setStorageAt ns p v h) = v) →
  (∀ ns p v h, hasStorageAt ns p (setStorageAt ns p v h) = true) →
  (AddressMemoryMap.delete this key h).1 = true ∧
  (AddressMemoryMap.delete this key h).2
    = setStorageAt (AddressMemoryMap.pointer this) (encodePointer_key key)
        (AddressMemoryMap.defaultValue this) h ∧
  AddressMemoryMap.get this key (AddressMemoryMap.delete this key h).2
    = AddressMemoryMap.defaultValue this ∧
  AddressMemoryMap.has this key (AddressMemoryMap.delete this key h).2 = true.
Proof.
  intros Hget Hhas.
  unfold AddressMemoryMap.delete, AddressMemoryMap.set, AddressMemoryMap.get,
    AddressMemoryMap.has. cbn [fst snd].
  repeat split; [apply Hget | apply Hhas].
Qed.

Lemma delete_is_tombstone_witness :
  let this := AddressMemoryMap.mk 3 0 in
  let key := [98; 97; 108] in
  let slot := @encodePointer_key _ _ test_host key in
  let h : gmap (Z * list Z) Z := <[(3, slot):=77]> ∅ in
  let deleted := @AddressMemoryMap.delete _ _ test_host this key h in
  deleted.1 = true ∧
  deleted.2 = @setStorageAt _ _ test_host 3 slot 0 h ∧
  @AddressMemoryMap.get _ _ test_host this key deleted.2 = 0 ∧
  @AddressMemoryMap.has _ _ test_host this key deleted.2 = true.
Proof.
  intros this key slot h deleted.
  apply (delete_is_tombstone (H:=test_host) this key h).
  - intros ns p v d h0. simpl. by rewrite lookup_insert_eq.
  - intros ns p v h0. simpl. rewrite lookup_insert_eq. by apply bool_decide_eq_true.
Defined.

(** ** The two-level store *)

(** C8.  [set(key, aggregator)]: the ensure-step leaves an aggregator bound
    to [key] (the default empty one when none was bound, the one already
    there otherwise), and the store that [set] returns is that store with
    [key] rebound to the supplied aggregator: whatever was or was not bound
    before, the entry of [key] is the supplied aggregator, and no other entry
    changes. *)
Theorem set_supplied_aggregator_wins {K V Merger : Type} `{Countable K}
    (new_Uint8ArrayMerger : K → Z → V → Merger)
    (this : MultiAddressMemoryMap.t K V Merger) (key : K) (aggregator : Merger) :
  let ensured := MultiAddressMemoryMap.createKeyMerger new_Uint8ArrayMerger this key in
  let after := MultiAddressMemoryMap.set new_Uint8ArrayMerger this key aggregator in
  MultiAddressMemoryMap.entries ensured !! key
    = Some (default (new_Uint8ArrayMerger key (MultiAddressMemoryMap.pointer this)
                       (MultiAddressMemoryMap.defaultValue this))
                    (MultiAddressMemoryMap.entries this !! key)) ∧
  after = MultiAddressMemoryMap.with_entries ensured
            (<[key:=aggregator]> (MultiAddressMemoryMap.entries ensured)) ∧
  MultiAddressMemoryMap.entries after !! key = Some aggregator ∧
  MultiAddressMemoryMap.entries after
    = <[key:=aggregator]> (MultiAddressMemoryMap.entries this) ∧
  (∀ key', key' ≠ key →
     MultiAddressMemoryMap.entries after !! key' = MultiAddressMemoryMap.entries this !! key') ∧
  MultiAddressMemoryMap.pointer after = MultiAddressMemoryMap.pointer this ∧
  MultiAddressMemoryMap.defaultValue after = MultiAddressMemoryMap.defaultValue this.
Proof.
  intros ensured after. subst ensured after.
  unfold MultiAddressMemoryMap.set, MultiAddressMemoryMap.createKeyMerger.
  destruct (MultiAddressMemoryMap.entries this !! key) as [old|] eqn:Hold.
  - rewrite bool_decide_eq_true_2 by by exists old.
    simpl. split; [exact Hold|]. split; [done|]. split; [apply lookup_insert_eq|].
    split; [done|]. split; [|done]. intros key' Hne. by rewrite lookup_insert_ne.
  - rewrite bool_decide_eq_false_2 by (by intros [? ?]).
    simpl. rewrite insert_insert_eq.
    split; [apply lookup_insert_eq|]. split; [done|]. split; [apply lookup_insert_eq|].
    split; [done|]. split; [|done]. intros key' Hne. by rewrite lookup_insert_ne.
Qed.

(** * Further properties *)

(** ** Byte order and sign *)

Lemma be_int_snoc bs b : be_int (bs ++ [b]) = be_int bs * 256 + b.
Proof. unfold be_int. by rewrite foldl_app. Qed.

Lemma be_int_reverse bs : be_int (reverse bs) = le_int bs.
Proof.
  induction bs as [|b bs IH]; [done|].
  rewrite reverse_cons, be_int_snoc, IH, le_int_cons. lia.
Qed.

Lemma be_bytes_length k n : length (be_bytes k n) = k.
Proof. unfold be_bytes. by rewrite length_reverse, le_bytes_length. Qed.

Lemma be_int_be_bytes k n : 0 <= n < 256 ^ Z.of_nat k → be_int (be_bytes k n) = n.
Proof. intros Hn. unfold be_bytes. rewrite be_int_reverse. by apply le_int_le_bytes. Qed.



(** X1.  The unsigned integers are read little-endian: over the [k]-byte
    little-endian encoding of [n], [readU8], [readU16], [readU32(true)] and
    [readU64] return [n] and leave the cursor [k] bytes further. *)
Theorem read_unsigned_little_endian (n : Z) (r : BytesReader) :
  i32_sized r →
  (0 <= n < 256 → ahead r (le_bytes 1 n) → readU8 r = (Ok n, advance r 1)) ∧
  (0 <= n < 65536 → ahead r (le_bytes 2 n) → readU16 r = (Ok n, advance r 2)) ∧
  (0 <= n < 4294967296 → ahead r (le_bytes 4 n) → readU32 true r = (Ok n, advance r 4)) ∧
  (0 <= n < 18446744073709551616 → ahead r (le_bytes 8 n) →
     readU64 r = (Ok n, advance r 8)).
Proof.
  intros Hs. repeat split; intros Hn Ha.
  - rewrite (parses_readU8 _ r Hs Ha). cbn [length]. f_equal. f_equal.
    apply Z.mod_small. lia.
  - rewrite (parses_readU16 _ _ r Hs Ha). cbn [length]. f_equal. f_equal.
    by apply (le_int_le_bytes 2).
  - rewrite (parses_readU32 true _ (le_bytes_length 4 n) r Hs Ha).
    rewrite le_bytes_length. f_equal. f_equal. by apply (le_int_le_bytes 4).
  - rewrite (parses_readU64 _ (le_bytes_length 8 n) r Hs Ha).
    rewrite le_bytes_length. f_equal. f_equal. by apply (le_int_le_bytes 8).
Qed.

Lemma read_unsigned_little_endian_witness :
  readU16 (new_BytesReader [57; 48]) = (Ok 12345, advance (new_BytesReader [57; 48]) 2).
Proof.
  refine (proj1 (proj2 (read_unsigned_little_endian 12345 (new_BytesReader [57; 48]) _)) _ _).
  - unfold i32_sized, I32_MAX. vm_compute. discriminate.
  - lia.
  - split; [unfold in_buffer; vm_compute; split; discriminate | reflexivity].
Defined.

(** X2.  Selectors and the unsigned big integers are read big-endian: over
    the big-endian encoding of [n], [readSelector] (4 bytes), [readU128]
    (16 bytes) and [readU256] (32 bytes) return [n] and leave the cursor
    behind the encoding. *)
Theorem read_unsigned_big_endian (n : Z) (r : BytesReader) :
  i32_sized r →
  (0 <= n < 2 ^ 32 → ahead r (be_bytes 4 n) → readSelector r = (Ok n, advance r 4)) ∧
  (0 <= n < 2 ^ 128 → ahead r (be_bytes 16 n) → readU128 r = (Ok n, advance r 16)) ∧
  (0 <= n < 2 ^ 256 → ahead r (be_bytes 32 n) → readU256 r = (Ok n, advance r 32)).
Proof.
  intros Hs. repeat split; intros Hn Ha.
  - unfold readSelector. rewrite (parses_readU32 false _ (be_bytes_length 4 n) r Hs Ha).
    rewrite be_bytes_length. f_equal. f_equal. by apply (be_int_be_bytes 4).
  - rewrite (parses_readU128 _ (be_bytes_length 16 n) r Hs Ha).
    rewrite be_bytes_length. f_equal. f_equal. by apply (be_int_be_bytes 16).
  - rewrite (parses_readU256 _ (be_bytes_length 32 n) r Hs Ha).
    rewrite be_bytes_length. f_equal. f_equal. by apply (be_int_be_bytes 32).
Qed.

Lemma read_unsigned_big_endian_witness :
  readSelector (new_BytesReader [1; 2; 3; 4])
  = (Ok 16909060, advance (new_BytesReader [1; 2; 3; 4]) 4).
Proof.
  refine (proj1 (read_unsigned_big_endian 16909060 (new_BytesReader [1; 2; 3; 4]) _) _ _).
  - unfold i32_sized, I32_MAX. vm_compute. discriminate.
  - lia.
  - split; [unfold in_buffer; vm_compute; split; discriminate | reflexivity].
Defined.



(** ** Length-prefixed and zero-stopped bytes *)

(** X4.  Length-prefixed bytes round-trip: over a u32 little-endian length
    followed by that many bytes, [readBytesWithLength] returns exactly those
    bytes -- zero bytes among them included -- and leaves the cursor behind
    them. *)
Theorem readBytesWithLength_round_trip (blob : list Z) (r : BytesReader) :
  Z.of_nat (length blob) <= BLOCK_MAXSIZE → i32_sized r →
  ahead r (encodeBytesWithLength blob) →
  readBytesWithLength r = (Ok blob, advance r (4 + length blob)).
Proof.
  intros Hl Hs Ha. rewrite (parses_readBytesWithLength blob Hl r Hs Ha).
  unfold encodeBytesWithLength. by rewrite length_app, le_bytes_length.
Qed.

Lemma readBytesWithLength_round_trip_witness :
  let r := new_BytesReader [3; 0; 0; 0; 9; 0; 7; 1] in
  readBytesWithLength r = (Ok [9; 0; 7], advance r 7).
Proof.
  intros r. apply (readBytesWithLength_round_trip [9; 0; 7] r).
  - vm_compute. discriminate.
  - unfold i32_sized, I32_MAX. vm_compute. discriminate.
  - split; [unfold in_buffer; vm_compute; split; discriminate | by exists [1]].
Defined.

Lemma upcoming_one_rest r b :
  0 <= currentOffset r → upcoming r 1 = [b] →
  drop (Z.to_nat (currentOffset r)) (view_data (buffer r))
  = b :: drop (Z.to_nat (currentOffset (advance r 1))) (view_data (buffer r)).
Proof.
  intros H0 Hup. unfold upcoming, window in Hup. unfold advance; simpl.
  replace (Z.to_nat (currentOffset r + Z.of_nat 1)) with (Z.to_nat (currentOffset r) + 1)%nat by lia.
  rewrite <- drop_drop.
  destruct (drop (Z.to_nat (currentOffset r)) (view_data (buffer r))) as [|x rest]; [done|].
  simpl in Hup. rewrite take_0 in Hup. by injection Hup as ->.
Qed.

Lemma readBytes_loop_no_zero_fails n :
  ∀ i bytes r, i32_sized r → Z.of_nat n > remaining r →
  Forall (λ b, b ≠ 0) (drop (Z.to_nat (currentOffset r)) (view_data (buffer r))) →
  fails_in_bounds (readBytes_loop true n i bytes) r.
Proof.
  induction n as [|n IH]; intros i bytes r Hs Hn Hnz.
  - pose proof (remaining_nonneg r). lia.
  - cbn [readBytes_loop].
    destruct (readU8_outcome r Hs) as [[Hpos (b & Hup & Hb)]|[_ Hf]].
    + destruct (remaining_pos _ Hpos) as [[H0 _] _].
      rewrite (upcoming_one_rest r b H0 Hup) in Hnz.
      inversion Hnz as [|? ? Hb0 Hrest]; subst.
      eapply fails_in_bounds_bind_r; [exact Hb|].
      assert (true && (b =? 0) = false) as -> by (simpl; by apply Z.eqb_neq).
      apply IH; [done | rewrite remaining_advance by done; lia | done].
    + by apply fails_in_bounds_bind_l.
Qed.

(** X5.  A zero-stopped read fails only for want of bytes: when no zero byte
    is left in the buffer and fewer bytes remain than the declared count,
    [readBytes(len, true)] fails with a bounds error. *)
Theorem readBytes_zeroStop_runs_out (len : Z) (r : BytesReader) :
  i32_sized r → len > remaining r →
  Forall (λ b, b ≠ 0) (drop (Z.to_nat (currentOffset r)) (view_data (buffer r))) →
  ∃ e r', readBytes len true r = (Throw e, r') ∧ BoundsError e.
Proof.
  intros Hs Hlen Hnz. unfold readBytes.
  destruct (decide (len <= BLOCK_MAXSIZE)) as [Hmax|Hmax].
  - eapply fails_in_bounds_bind_r; [unfold lift; by rewrite new_Uint8Array_Ok|].
    apply readBytes_loop_no_zero_fails; [done | | done].
    pose proof (remaining_nonneg r). lia.
  - apply fails_in_bounds_bind_l. unfold lift.
    rewrite new_Uint8Array_Throw by lia. by exists RangeError, r.
Qed.

Lemma readBytes_zeroStop_runs_out_witness :
  ∃ e r', readBytes 4 true (new_BytesReader [72; 105]) = (Throw e, r') ∧ BoundsError e.
Proof.
  apply (readBytes_zeroStop_runs_out 4 (new_BytesReader [72; 105])).
  - unfold i32_sized, I32_MAX. vm_compute. discriminate.
  - vm_compute. reflexivity.
  - repeat constructor; discriminate.
Defined.

(** ** Counted sequences *)

(** A loop that decodes one item per turn into the slot of its index. *)
Lemma parses_indexed_loop {A B} (body : nat → list A → Reader (list A))
    (enc : B → list Z) (g : B → A) (xs : list B) :
  (∀ i a x, x ∈ xs → parses (body i a) (enc x) (<[i:=g x]> a)) →
  ∀ done pad, length pad = length xs →
  parses (for_loop (length xs) (length done) body (done ++ pad))
         (concat (map enc xs)) (done ++ map g xs).
Proof.
  induction xs as [|x xs IH]; intros Hbody done pad Hpad.
  - destruct pad; [|done]. apply parses_ret.
  - destruct pad as [|y pad]; [done|]. injection Hpad as Hpad.
    cbn [length for_loop map concat]. eapply parses_bind.
    + apply Hbody. by left.
    + rewrite insert_at_fill.
      replace (S (length done)) with (length (done ++ [g x]))
        by (rewrite length_app; simpl; lia).
      replace (done ++ g x :: map g xs) with ((done ++ [g x]) ++ map g xs)
        by (by rewrite <- app_assoc).
      apply IH; [|done]. intros i a x' Hx'. apply Hbody. by right.
Qed.

Lemma parses_readU256_value v :
  0 <= v < 2 ^ 256 → parses readU256 (be_bytes 32 v) v.
Proof.
  intros Hv r Hs Ha.
  rewrite (parses_readU256 _ (be_bytes_length 32 v) r Hs Ha).
  f_equal. f_equal. by apply (be_int_be_bytes 32).
Qed.

Lemma parses_readU64_value v :
  0 <= v < 18446744073709551616 → parses readU64 (le_bytes 8 v) v.
Proof.
  intros Hv r Hs Ha.
  rewrite (parses_readU64 _ (le_bytes_length 8 v) r Hs Ha).
  f_equal. f_equal. by apply (le_int_le_bytes 8).
Qed.

(** X6.  A u256 tuple round-trips: over a u32 count followed by that many
    32-byte big-endian values, [readTuple] returns the values in order and
    leaves the cursor behind the last one. *)
Theorem readTuple_round_trip (values : list Z) (r : BytesReader) :
  Z.of_nat (length values) <= 268435455 →
  Forall (λ v, 0 <= v < 2 ^ 256) values →
  i32_sized r → ahead r (encodeTuple values) →
  readTuple r = (Ok values, advance r (length (encodeTuple values))).
Proof.
  intros Hn Hvs Hs Ha.
  assert (parses readTuple (encodeTuple values) values) as Hp.
  { unfold readTuple, encodeTuple.
    eapply parses_bind; [apply parses_readU32, le_bytes_length|].
    cbn beta. rewrite (le_int_le_bytes 4) by (change (256 ^ Z.of_nat 4) with 4294967296; lia).
    eapply parses_lift_bind; [by apply new_Array_Ok|].
    rewrite Nat2Z.id.
    pose proof (parses_indexed_loop
                  (λ i result, value <- readU256 ;; ret (<[i:=value]> result))
                  (be_bytes 32) id values) as Hloop.
    rewrite map_id in Hloop.
    apply (λ Hbody, Hloop Hbody [] (replicate (length values) 0)); [|apply length_replicate].
    intros i a v Hv. rewrite Forall_forall in Hvs.
    eapply parses_bind_nil; [apply parses_readU256_value, Hvs, Hv | apply parses_ret]. }
  exact (Hp r Hs Ha).
Qed.

Lemma readTuple_round_trip_witness :
  let r := new_BytesReader (encodeTuple [7; 300]) in
  readTuple r = (Ok [7; 300], advance r (length (encodeTuple [7; 300]))).
Proof.
  intros r. apply (readTuple_round_trip [7; 300] r).
  - vm_compute. discriminate.
  - repeat (apply Forall_cons_2; [split; [vm_compute; discriminate | vm_compute; reflexivity]|]).
    apply Forall_nil_2.
  - unfold i32_sized, I32_MAX. vm_compute. discriminate.
  - split; [unfold in_buffer; vm_compute; split; discriminate | reflexivity].
Defined.

(** X7.  An address array round-trips: over a u16 count followed by that
    many addresses, [readAddressArray] returns the addresses in order,
    repeated addresses included. *)
Theorem readAddressArray_round_trip `{Platform} (addresses : list (list Z)) (r : BytesReader) :
  Z.of_nat (length addresses) < 65536 →
  Forall (λ a, length a = ADDRESS_BYTE_LENGTH) addresses →
  i32_sized r → ahead r (encodeAddressArray addresses) →
  readAddressArray r = (Ok addresses, advance r (length (encodeAddressArray addresses))).
Proof.
  intros Hn Has Hs Ha.
  assert (parses readAddressArray (encodeAddressArray addresses) addresses) as Hp.
  { unfold readAddressArray, encodeAddressArray.
    eapply parses_bind; [apply parses_readU16|].
    cbn beta. change [?b0; ?b1] with (le_bytes 2 (Z.of_nat (length addresses))).
    rewrite (le_int_le_bytes 2) by (change (256 ^ Z.of_nat 2) with 65536; lia).
    rewrite Nat2Z.id.
    pose proof (parses_indexed_loop
                  (λ i result, address <- readAddress ;; ret (<[i:=address]> result))
                  id id addresses) as Hloop.
    rewrite map_id in Hloop.
    apply (λ Hbody, Hloop Hbody [] (replicate (length addresses) []));
      [|apply length_replicate].
    intros i a x Hx. rewrite Forall_forall in Has.
    eapply parses_bind_nil; [apply parses_readAddress, Has, Hx | apply parses_ret]. }
  exact (Hp r Hs Ha).
Qed.

Lemma readAddressArray_round_trip_witness :
  let a := replicate 32 7 in
  let r := new_BytesReader (encodeAddressArray [a; a]) in
  readAddressArray (H:=test_platform) r
  = (Ok [a; a], advance r (length (encodeAddressArray [a; a]))).
Proof.
  intros a r. apply (readAddressArray_round_trip (H:=test_platform) [a; a] r).
  - vm_compute. reflexivity.
  - repeat (apply Forall_cons_2; [reflexivity|]). apply Forall_nil_2.
  - unfold i32_sized, I32_MAX. vm_compute. discriminate.
  - split; [unfold in_buffer; vm_compute; split; discriminate | reflexivity].
Defined.

(** X8.  Transaction inputs round-trip: over a u8 count followed by that
    many (32-byte id, u8 index, length-prefixed script) records,
    [readTransactionInputs] returns the records in order, every slot of the
    array filled. *)
Theorem readTransactionInputs_round_trip (inputs : list TransactionInput) (r : BytesReader) :
  (length inputs < 256)%nat → Forall sized_input inputs →
  i32_sized r → ahead r (encodeTransactionInputs inputs) →
  readTransactionInputs r
  = (Ok (map Some inputs), advance r (length (encodeTransactionInputs inputs))).
Proof.
  intros Hn Hws Hs Ha.
  assert (parses readTransactionInputs (encodeTransactionInputs inputs) (map Some inputs)) as Hp.
  { unfold readTransactionInputs, encodeTransactionInputs.
    eapply (parses_bind _ _ [Z.of_nat (length inputs)]); [apply parses_readU8|].
    rewrite Nat2Z.id.
    eapply (λ Hbody, parses_indexed_loop _ encodeTransactionInput Some inputs Hbody []);
      [|apply length_replicate].
    intros i a [id idx script] Hx. rewrite Forall_forall in Hws.
    destruct (Hws _ Hx) as [Hid Hscript]. simpl in Hid, Hscript.
    unfold encodeTransactionInput. cbn [txId outputIndex scriptSig].
    eapply parses_bind;
      [apply parses_readBytes_full; [by rewrite Hid | unfold BLOCK_MAXSIZE; lia | done]|].
    eapply (parses_bind _ _ [idx]); [apply parses_readU8|].
    eapply parses_bind_nil; [by apply parses_readBytesWithLength | apply parses_ret]. }
  exact (Hp r Hs Ha).
Qed.

Lemma readTransactionInputs_round_trip_witness :
  let input := mkTransactionInput (replicate 32 9) 1 [81; 0; 82] in
  let r := new_BytesReader (encodeTransactionInputs [input]) in
  readTransactionInputs r
  = (Ok [Some input], advance r (length (encodeTransactionInputs [input]))).
Proof.
  intros input r. apply (readTransactionInputs_round_trip [input] r).
  - vm_compute. lia.
  - apply Forall_cons_2; [|apply Forall_nil_2].
    split; [reflexivity | vm_compute; discriminate].
  - unfold i32_sized, I32_MAX. vm_compute. discriminate.
  - split; [unfold in_buffer; vm_compute; split; discriminate | reflexivity].
Defined.

(** X9.  Transaction outputs round-trip: over a u8 count followed by that
    many (u8 index, length-prefixed script, u64 little-endian value)
    records, [readTransactionOutputs] returns the records in order. *)
Theorem readTransactionOutputs_round_trip (outputs : list TransactionOutput) (r : BytesReader) :
  (length outputs < 256)%nat → Forall sized_output outputs →
  i32_sized r → ahead r (encodeTransactionOutputs outputs) →
  readTransactionOutputs r
  = (Ok (map Some outputs), advance r (length (encodeTransactionOutputs outputs))).
Proof.
  intros Hn Hws Hs Ha.
  assert (parses readTransactionOutputs (encodeTransactionOutputs outputs) (map Some outputs))
    as Hp.
  { unfold readTransactionOutputs, encodeTransactionOutputs.
    eapply (parses_bind _ _ [Z.of_nat (length outputs)]); [apply parses_readU8|].
    rewrite Nat2Z.id.
    eapply (λ Hbody, parses_indexed_loop _ encodeTransactionOutput Some outputs Hbody []);
      [|apply length_replicate].
    intros i a [idx script val] Hx. rewrite Forall_forall in Hws.
    destruct (Hws _ Hx) as [Hscript Hval]. simpl in Hscript, Hval.
    unfold encodeTransactionOutput. cbn [index scriptPubKey value].
    eapply (parses_bind _ _ [idx]); [apply parses_readU8|].
    eapply (parses_bind _ _ (encodeBytesWithLength script) (le_bytes 8 val));
      [by apply parses_readBytesWithLength|].
    eapply parses_bind_nil; [by apply parses_readU64_value | apply parses_ret]. }
  exact (Hp r Hs Ha).
Qed.

Lemma readTransactionOutputs_round_trip_witness :
  let output := mkTransactionOutput 0 [118; 169] 5000000000 in
  let r := new_BytesReader (encodeTransactionOutputs [output]) in
  readTransactionOutputs r
  = (Ok [Some output], advance r (length (encodeTransactionOutputs [output]))).
Proof.
  intros output r. apply (readTransactionOutputs_round_trip [output] r).
  - vm_compute. lia.
  - apply Forall_cons_2; [|apply Forall_nil_2].
    split; [vm_compute; discriminate | split; [vm_compute; discriminate | reflexivity]].
  - unfold i32_sized, I32_MAX. vm_compute. discriminate.
  - split; [unfold in_buffer; vm_compute; split; discriminate | reflexivity].
Defined.

(** ** The errors a read can throw *)

Lemma throws_only_ret {A} P (a : A) : throws_only P (ret a).
Proof. by intros r e r' Hm. Qed.

Lemma throws_only_throw {A} (P : error → Prop) e : P e → throws_only P (@throw A e).
Proof. intros He r e' r' Hm. by inversion Hm; subst. Qed.

Lemma throws_only_bind {A B} P (m : Reader A) (f : A → Reader B) :
  throws_only P m → (∀ a, throws_only P (f a)) → throws_only P (bind m f).
Proof.
  intros Hm Hf r e r2 Hb.
  destruct (bind_inv _ _ _ _ _ Hb) as [(a & r1 & _ & Hfa)|(e' & Hme & Heq)].
  - by eapply Hf.
  - inversion Heq; subst. by eapply Hm.
Qed.

Lemma throws_only_for_loop {A} P (body : nat → A → Reader A) n :
  (∀ i a, throws_only P (body i a)) → ∀ i a, throws_only P (for_loop n i body a).
Proof.
  intros Hbody. induction n as [|n IH]; intros i a.
  - apply throws_only_ret.
  - cbn [for_loop]. apply throws_only_bind; [apply Hbody | intros a'; apply IH].
Qed.

Lemma throws_only_if {A} P (c : bool) (m1 m2 : Reader A) :
  throws_only P m1 → throws_only P m2 → throws_only P (if c then m1 else m2).
Proof. by destruct c. Qed.

Lemma throws_only_weaken {A} (P Q : error → Prop) (m : Reader A) :
  (∀ e, P e → Q e) → throws_only P m → throws_only Q m.
Proof. intros HPQ Hm r e r' Hr. apply HPQ. by eapply Hm. Qed.

Lemma throws_only_getOffset P : throws_only P getOffset.
Proof. by intros r e r' Hm. Qed.

Lemma throws_only_setOffset P offset : throws_only P (setOffset offset).
Proof. by intros r e r' Hm. Qed.

Lemma throws_only_verifyEnd size : throws_only BoundsError (verifyEnd size).
Proof.
  intros r e r' Hm. unfold verifyEnd in Hm.
  destruct (_ >? _); by inversion Hm.
Qed.

Lemma throws_only_lift {A} (x : result A) :
  (∀ e, x = Throw e → e = RangeError) → throws_only BoundsError (lift x).
Proof. intros Hx r e r' Hm. inversion Hm; subst. by rewrite (Hx e). Qed.

Lemma throws_only_on_buffer {A} (get : DataView → result A) :
  (∀ v e, get v = Throw e → e = RangeError) →
  throws_only BoundsError (on_buffer get).
Proof. intros Hget r e r' Hm. inversion Hm as [[Hg Hr]]. by rewrite (Hget _ _ Hg). Qed.

Lemma accessor_throws n le v off e :
  view_get v off n le = Throw e → e = RangeError.
Proof. apply view_get_Throw. Qed.

Lemma getInt64_throws v off le e : getInt64 v off le = Throw e → e = RangeError.
Proof.
  unfold getInt64. destruct (view_get v off 8 le) eqn:Hg; [done|].
  intros [= <-]. by eapply view_get_Throw.
Qed.

Lemma getFloat32_throws v off le e : getFloat32 v off le = Throw e → e = RangeError.
Proof.
  unfold getFloat32. destruct (view_get v off 4 le) eqn:Hg; [done|].
  intros [= <-]. by eapply view_get_Throw.
Qed.

Ltac throws_only_step :=
  first
    [ apply throws_only_ret
    | apply throws_only_getOffset
    | apply throws_only_setOffset
    | apply throws_only_verifyEnd
    | apply throws_only_on_buffer; intros ? ?;
        first [apply accessor_throws | apply getInt64_throws | apply getFloat32_throws]
    | apply throws_only_lift; first [apply new_Uint8Array_throws | apply new_Array_throws]
    | apply throws_only_for_loop; intros
    | apply throws_only_if
    | apply throws_only_bind; [|intros] ].

Lemma throws_only_readBytes_loop zeroStop n :
  ∀ i bytes, throws_only BoundsError (readBytes_loop zeroStop n i bytes).
Proof.
  induction n as [|n IH]; intros i bytes; cbn [readBytes_loop].
  - apply throws_only_ret.
  - apply throws_only_bind; [unfold readU8, getUint8; repeat throws_only_step | intros byte].
    apply throws_only_if; [apply throws_only_ret | apply IH].
Qed.

Ltac unfold_reads :=
  unfold readSelector, readBoolean, readString, readStringWithLength,
    readAddressArray, readTuple, readTransactionInputs, readTransactionOutputs,
    readBytesWithLength, readBytes, readAddress,
    readU128, readI128, readU256, readI256, readBytesBE,
    readU8, readU16, readU32, readU64, readI64, readFloat,
    getUint8, getUint16, getUint32, getUint64.

(** The reads that validate nothing throw bounds errors only. *)
Lemma throws_only_plain `{Platform} {A} (op : read_op A) :
  validated op = false → throws_only BoundsError (run op).
Proof.
  intros Hv. destruct op; try discriminate; cbn [run]; unfold_reads;
    repeat first [apply throws_only_readBytes_loop | throws_only_step].
Qed.

Lemma throws_only_decoding `{Platform} {A} (op : read_op A) :
  validated op = false → throws_only decoding_error (run op).
Proof.
  intros Hv. eapply throws_only_weaken; [|by apply throws_only_plain]. by left.
Qed.

Ltac decoding_step :=
  first
    [ apply (throws_only_decoding ReadU8); reflexivity
    | apply (throws_only_decoding ReadU16); reflexivity
    | apply (throws_only_decoding ReadU256); reflexivity
    | apply (throws_only_decoding ReadAddress); reflexivity
    | apply (throws_only_decoding ReadBytesWithLength); reflexivity
    | apply throws_only_ret
    | apply throws_only_throw; right; unfold structural_error; by eauto
    | apply throws_only_for_loop; intros
    | apply throws_only_if
    | apply throws_only_bind; [|intros] ].

(** X10.  What a read throws is classified: every read throws bounds
    errors only, but for the two validated map decoders, which besides can
    throw one of their three structural errors (a duplicate address, too
    many contracts, too many calls). *)
Theorem read_errors_classified `{Platform} {A} (op : read_op A) (r r' : BytesReader) (e : error) :
  run op r = (Throw e, r') →
  (BoundsError e ∨ structural_error e) ∧ (validated op = false → BoundsError e).
Proof.
  intros Hm. split.
  - assert (throws_only decoding_error (run op)) as Hall; [|by eapply Hall].
    destruct (validated op) eqn:Hv; [|by apply throws_only_decoding].
    destruct op; try discriminate; cbn [run];
      unfold readAddressValueTuple, readMultiBytesAddressMap; repeat decoding_step.
  - intros Hv. by eapply (throws_only_plain op Hv).
Qed.

Lemma read_errors_classified_witness :
  let r := new_BytesReader [9] in
  (BoundsError (Revert "Too many contract called.")
   ∨ structural_error (Revert "Too many contract called."))
  ∧ (validated ReadMultiBytesAddressMap = false
     → BoundsError (Revert "Too many contract called.")).
Proof.
  intros r.
  apply (read_errors_classified (H:=test_platform) ReadMultiBytesAddressMap r (advance r 1)).
  reflexivity.
Defined.

(** ** The caps of the call batch *)



(** ** Counts that cannot be allocated *)

(** X12.  A length prefix beyond what the runtime allocates fails at the
    allocation, after the prefix is consumed and before anything else is
    read: [readBytesWithLength] for a length above [BLOCK_MAXSIZE],
    [readTuple] for a count above [BLOCK_MAXSIZE >>> 2]; both throw a
    [RangeError] and leave the cursor behind the four bytes of the
    prefix. *)
Theorem oversized_prefix_fails_at_allocation (n : Z) (r : BytesReader) :
  i32_sized r → 0 <= n < 4294967296 → ahead r (le_bytes 4 n) →
  (BLOCK_MAXSIZE < n → readBytesWithLength r = (Throw RangeError, advance r 4)) ∧
  (Z.shiftr BLOCK_MAXSIZE 2 < n → readTuple r = (Throw RangeError, advance r 4)).
Proof.
  intros Hs Hn Ha.
  pose proof (parses_readU32 true _ (le_bytes_length 4 n) r Hs Ha) as Hlen.
  rewrite (le_int_le_bytes 4) in Hlen by done. rewrite le_bytes_length in Hlen.
  split; intros Hbig.
  - unfold readBytesWithLength. rewrite (bind_Ok _ _ _ _ _ Hlen).
    unfold readBytes, bind, lift. by rewrite new_Uint8Array_Throw.
  - unfold readTuple. rewrite (bind_Ok _ _ _ _ _ Hlen).
    unfold bind, lift, new_Array.
    by assert ((n >? Z.shiftr BLOCK_MAXSIZE 2) = true) as ->
      by (rewrite Z.gtb_ltb; apply Z.ltb_lt; lia).
Qed.

Lemma oversized_prefix_fails_at_allocation_witness :
  let r := new_BytesReader [255; 255; 255; 127; 1] in
  readBytesWithLength r = (Throw RangeError, advance r 4).
Proof.
  intros r.
  refine (proj1 (oversized_prefix_fails_at_allocation 2147483647 r _ _ _) _).
  - unfold i32_sized, I32_MAX. vm_compute. discriminate.
  - lia.
  - split; [unfold in_buffer; vm_compute; split; discriminate | by exists [1]].
  - unfold BLOCK_MAXSIZE. lia.
Defined.

(** ** The cursor only moves forward *)

Lemma moves_forward_ret {A} (a : A) : moves_forward (ret a).
Proof. intros r a' r' _ _ Hm. inversion Hm; subst. lia. Qed.

Lemma moves_forward_throw {A} e : moves_forward (@throw A e).
Proof. intros r a' r' _ _ Hm. inversion Hm. Qed.

Lemma moves_forward_getOffset : moves_forward getOffset.
Proof. intros r a' r' _ _ Hm. inversion Hm; subst. lia. Qed.

Lemma moves_forward_verifyEnd size : moves_forward (verifyEnd size).
Proof.
  intros r a' r' _ _ Hm. unfold verifyEnd in Hm.
  destruct (_ >? _); inversion Hm; subst. lia.
Qed.

Lemma moves_forward_lift {A} (x : result A) : moves_forward (lift x).
Proof. intros r a' r' _ _ Hm. inversion Hm; subst. lia. Qed.

Lemma moves_forward_bind {A B} (m : Reader A) (f : A → Reader B) :
  keeps_cursor m → moves_forward m → (∀ a, moves_forward (f a)) →
  moves_forward (bind m f).
Proof.
  intros Hk Hm Hf r b r2 Hs Hin Hb.
  destruct (bind_inv _ _ _ _ _ Hb) as [(a & r1 & Hma & Hfa)|(e & _ & Heq)]; [|done].
  destruct (Hk _ _ _ Hma) as (Hbuf & _ & Hin1).
  assert (is_Ok (Ok a)) as Hoka by by exists a.
  pose proof (Hm _ _ _ Hs Hin Hma) as H1.
  assert (i32_sized r1) as Hs1 by (unfold i32_sized; by rewrite Hbuf).
  pose proof (Hf a _ _ _ Hs1 (Hin1 Hs Hin Hoka) Hfa) as H2. lia.
Qed.

Lemma moves_forward_for_loop {A} (body : nat → A → Reader A) n :
  (∀ i a, keeps_cursor (body i a)) → (∀ i a, moves_forward (body i a)) →
  ∀ i a, moves_forward (for_loop n i body a).
Proof.
  intros Hk Hbody. induction n as [|n IH]; intros i a.
  - apply moves_forward_ret.
  - cbn [for_loop]. apply moves_forward_bind; [apply Hk | apply Hbody | intros a'; apply IH].
Qed.

Lemma moves_forward_if {A} (c : bool) (m1 m2 : Reader A) :
  moves_forward m1 → moves_forward m2 → moves_forward (if c then m1 else m2).
Proof. by destruct c. Qed.

(** A read made of the entry check (or none), one accessor call and the
    move of the cursor behind the bytes it took. *)
Lemma moves_forward_access {A} (check : Z → Reader unit) (n : Z)
    (get : DataView → Z → result A) :
  0 <= n →
  (∀ off, check off = ret tt ∨ ∃ size, check off = verifyEnd size) →
  (∀ v off, match get v off with
            | Ok _ => 0 <= off ∧ off + n <= byteLength v
            | Throw e => e = RangeError
            end) →
  moves_forward (off <- getOffset ;;
                 check off ;;;
                 value <- on_buffer (λ v, get v off) ;;
                 setOffset (i32 (off + n)) ;;;
                 ret value).
Proof.
  intros Hn Hcheck Hget r x r' Hs Hin Hm.
  unfold bind, getOffset, on_buffer, setOffset, ret in Hm.
  assert (check (currentOffset r) r = (Ok tt, r)) as Hc.
  { destruct (Hcheck (currentOffset r)) as [->|[size ->]]; [done|].
    unfold verifyEnd. destruct Hin as [_ Hle].
    by assert ((currentOffset r >? byteLength (buffer r)) = false) as ->
      by (rewrite Z.gtb_ltb; apply Z.ltb_ge; lia). }
  rewrite Hc in Hm. specialize (Hget (buffer r) (currentOffset r)).
  destruct (get (buffer r) (currentOffset r)) as [a|e]; inversion Hm; subst; simpl.
  destruct Hget as [H0 Hle]. unfold i32_sized, I32_MAX in Hs. rewrite i32_id; lia.
Qed.

Lemma moves_forward_readU8 : moves_forward readU8.
Proof.
  intros r x r' Hs Hin Hm.
  unfold readU8, bind, getOffset, verifyEnd, setOffset, on_buffer, getUint8 in Hm.
  destruct (currentOffset r >? byteLength (buffer r)); [by inversion Hm|].
  simpl in Hm. pose proof (get_view_facts 1 true (buffer r) (currentOffset r)) as Hget.
  destruct (view_get (buffer r) (currentOffset r) 1 true) as [a|e]; inversion Hm; subst; simpl.
  destruct Hget as [H0 Hle]. unfold i32_sized, I32_MAX in Hs. rewrite i32_id; lia.
Qed.

Lemma moves_forward_readU16 : moves_forward readU16.
Proof.
  apply (moves_forward_access (λ off, verifyEnd (i32 (off + 2))) 2 (λ v off, getUint16 v off true));
    [lia | by eauto | intros; apply (get_view_facts 2)].
Qed.

Lemma moves_forward_readU32 le : moves_forward (readU32 le).
Proof.
  apply (moves_forward_access (λ off, verifyEnd (i32 (off + 4))) 4 (λ v off, getUint32 v off le));
    [lia | by eauto | intros; apply (get_view_facts 4)].
Qed.

Lemma moves_forward_readU64 : moves_forward readU64.
Proof.
  apply (moves_forward_access (λ off, verifyEnd (i32 (off + 8))) 8 (λ v off, getUint64 v off true));
    [lia | by eauto | intros; apply (get_view_facts 8)].
Qed.

Lemma moves_forward_readI64 : moves_forward readI64.
Proof.
  apply (moves_forward_access (λ off, verifyEnd (i32 (off + 8))) 8 (λ v off, getInt64 v off true));
    [lia | by eauto |].
  intros v off. unfold getInt64. pose proof (get_view_facts 8 true v off).
  by destruct (view_get v off 8 true).
Qed.

Lemma moves_forward_readFloat : moves_forward readFloat.
Proof.
  intros r x r' Hs Hin Hm.
  apply (moves_forward_access (λ off, ret tt) 4 (λ v off, getFloat32 v off true) ltac:(lia))
    with (r := r) (a := x); [by eauto | | done | done | exact Hm].
  intros v off. unfold getFloat32. pose proof (get_view_facts 4 true v off).
  by destruct (view_get v off 4 true).
Qed.

Lemma moves_forward_readBytes_loop zeroStop n :
  ∀ i bytes, moves_forward (readBytes_loop zeroStop n i bytes).
Proof.
  induction n as [|n IH]; intros i bytes; cbn [readBytes_loop].
  - apply moves_forward_ret.
  - apply moves_forward_bind;
      [apply keeps_cursor_readU8 | apply moves_forward_readU8 | intros byte].
    apply moves_forward_if; [apply moves_forward_ret | apply IH].
Qed.

Lemma moves_forward_readBytes len zeroStop : moves_forward (readBytes len zeroStop).
Proof.
  unfold readBytes. apply moves_forward_bind.
  - apply keeps_cursor_lift, new_Uint8Array_throws.
  - apply moves_forward_lift.
  - intros bytes. apply moves_forward_readBytes_loop.
Qed.

Ltac moves_forward_step :=
  first
    [ apply moves_forward_ret
    | apply moves_forward_throw
    | apply moves_forward_getOffset
    | apply moves_forward_verifyEnd
    | apply moves_forward_lift
    | apply moves_forward_readU8
    | apply moves_forward_readU16
    | apply moves_forward_readU32
    | apply moves_forward_readU64
    | apply moves_forward_readI64
    | apply moves_forward_readFloat
    | apply moves_forward_readBytes
    | apply moves_forward_for_loop; [intros; keeps_cursor_solve | intros]
    | apply moves_forward_if
    | apply moves_forward_bind; [keeps_cursor_solve | |intros] ].

(** X13.  A read that completes never moves the cursor backwards: started
    inside the buffer, it leaves the cursor at or after the place it
    started from. *)
Theorem cursor_moves_forward `{Platform} {A} (op : read_op A) (r r' : BytesReader) (a : A) :
  i32_sized r → in_buffer r → run op r = (Ok a, r') →
  currentOffset r <= currentOffset r'.
Proof.
  revert r a r'. change (moves_forward (run op)).
  destruct op; cbn [run];
    unfold readSelector, readBoolean, readString, readStringWithLength,
      readAddressArray, readTuple, readAddressValueTuple, readMultiBytesAddressMap,
      readTransactionInputs, readTransactionOutputs,
      readBytesWithLength, readAddress,
      readU128, readI128, readU256, readI256, readBytesBE;
    repeat moves_forward_step.
Qed.

Lemma cursor_moves_forward_witness :
  let r := mkBytesReader (mkDataView [9; 3; 0; 0; 0; 7; 0; 8; 1]) 1 in
  currentOffset r <= currentOffset (advance r 7).
Proof.
  intros r.
  apply (cursor_moves_forward (H:=test_platform) ReadBytesWithLength r (advance r 7) [7; 0; 8]).
  - unfold i32_sized, I32_MAX. vm_compute. discriminate.
  - unfold in_buffer. vm_compute. split; discriminate.
  - reflexivity.
Defined.

(** ** The pointer encoder on a short hash *)

Lemma encodePointer_loop_short n :
  ∀ i hash finalPointer,
  (i <= length hash < i + n)%nat →
  encodePointer_loop n i hash finalPointer = Throw RangeError.
Proof.
  induction n as [|n IH]; intros i hash fp Hh; [lia|].
  cbn [encodePointer_loop]. unfold typed_get.
  destruct (hash !! i) as [h|] eqn:Hlook; [|done].
  apply lookup_lt_Some in Hlook. apply IH. lia.
Qed.

(** X14.  [encodePointer] reads 30 bytes of the hash, whatever the hash
    holds: over a hash shorter than 30 bytes the read [hash[i]] past its end
    throws, and no pointer is built. *)
Theorem encodePointer_short_hash `{Hashing} (ns : Z) (k : list Z) :
  (length (Sha256_hash k) < 30)%nat →
  encodePointer_bytes ns k = Throw RangeError ∧ encodePointer ns k = Throw RangeError.
Proof.
  intros Hh.
  assert (encodePointer_bytes ns k = Throw RangeError) as Hb.
  { unfold encodePointer_bytes. apply encodePointer_loop_short. lia. }
  split; [done|]. unfold encodePointer. by rewrite Hb.
Qed.

Lemma encodePointer_short_hash_witness :
  let short := {| MemorySlotPointer := list Z;
                  Sha256_hash := λ typed : list Z, take 20 (typed ++ replicate 20 0);
                  bytes32 := λ bs, bs |} in
  encodePointer_bytes (H:=short) 1 [98; 97] = Throw RangeError
  ∧ encodePointer (H:=short) 1 [98; 97] = Throw RangeError.
Proof.
  intros short. apply (encodePointer_short_hash (H:=short) 1 [98; 97]).
  vm_compute. lia.
Defined.

(** ** The single-level store: keys are their pointers *)



(** ** The two-level store: ensure, update, remove *)

Section TwoLevelStore.
Context {K K2 V Merger : Type} `{Countable K}.
Variable new_Uint8ArrayMerger : K → Z → V → Merger.
Variable Uint8ArrayMerger_set : Merger → K2 → V → Merger.

Local Abbreviation fresh this key :=
  (new_Uint8ArrayMerger key (MultiAddressMemoryMap.pointer this)
     (MultiAddressMemoryMap.defaultValue this)).
Local Abbreviation ensured this key :=
  (default (fresh this key) (MultiAddressMemoryMap.entries this !! key)).

Lemma createKeyMerger_entries (this : MultiAddressMemoryMap.t K V Merger) (key : K) :
  MultiAddressMemoryMap.entries (MultiAddressMemoryMap.createKeyMerger new_Uint8ArrayMerger this key)
  = <[key:=ensured this key]> (MultiAddressMemoryMap.entries this).
Proof.
  unfold MultiAddressMemoryMap.createKeyMerger.
  destruct (MultiAddressMemoryMap.entries this !! key) as [old|] eqn:Hold.
  - rewrite bool_decide_eq_true_2 by by exists old. simpl. by rewrite insert_id.
  - by rewrite bool_decide_eq_false_2 by (by intros [? ?]).
Qed.

(** X16.  [get(key)] never misses: it returns the aggregator bound to the
    key, or a fresh default one that it binds to the key first; after a
    [get] the key is present, and no other entry has changed. *)
Theorem get_ensures_entry (this : MultiAddressMemoryMap.t K V Merger) (key : K) :
  let out := MultiAddressMemoryMap.get new_Uint8ArrayMerger this key in
  out.1 = Some (ensured this key) ∧
  MultiAddressMemoryMap.has out.2 key = true ∧
  MultiAddressMemoryMap.entries out.2 = <[key:=ensured this key]> (MultiAddressMemoryMap.entries this) ∧
  (MultiAddressMemoryMap.has this key = true → out.2 = this).
Proof.
  intros out. subst out. unfold MultiAddressMemoryMap.get, MultiAddressMemoryMap.has.
  cbn [fst snd]. rewrite createKeyMerger_entries. rewrite lookup_insert_eq.
  split; [done|]. split; [by apply bool_decide_eq_true|]. split; [done|].
  intros Hhas. unfold MultiAddressMemoryMap.createKeyMerger. by rewrite Hhas.
Qed.


(** X18.  [delete(key)] tells whether the key was bound and unbinds it,
    leaving the other entries; [clear()] unbinds every key; so a [get] after
    either starts again from a fresh default aggregator. *)
Theorem delete_and_clear_unbind (this : MultiAddressMemoryMap.t K V Merger) (key : K) :
  let deleted := MultiAddressMemoryMap.delete this key in
  let cleared := MultiAddressMemoryMap.clear this in
  deleted.1 = MultiAddressMemoryMap.has this key ∧
  MultiAddressMemoryMap.has deleted.2 key = false ∧
  (∀ key', key' ≠ key →
     MultiAddressMemoryMap.entries deleted.2 !! key' = MultiAddressMemoryMap.entries this !! key') ∧
  (∀ key', MultiAddressMemoryMap.has cleared key' = false) ∧
  (MultiAddressMemoryMap.get new_Uint8ArrayMerger deleted.2 key).1 = Some (fresh this key) ∧
  (MultiAddressMemoryMap.get new_Uint8ArrayMerger cleared key).1 = Some (fresh this key).
Proof.
  intros deleted cleared. subst deleted cleared.
  unfold MultiAddressMemoryMap.delete, MultiAddressMemoryMap.clear, MultiAddressMemoryMap.has,
    MultiAddressMemoryMap.get.
  cbn [fst snd MultiAddressMemoryMap.with_entries MultiAddressMemoryMap.entries].
  split; [done|]. split.
  { apply bool_decide_eq_false. rewrite lookup_delete_eq. by intros [? ?]. }
  split; [intros key' Hne; by rewrite lookup_delete_ne|]. split.
  { intros key'. apply bool_decide_eq_false. rewrite lookup_empty. by intros [? ?]. }
  rewrite !createKeyMerger_entries, !lookup_insert_eq.
  cbn [MultiAddressMemoryMap.with_entries MultiAddressMemoryMap.entries
       MultiAddressMemoryMap.pointer MultiAddressMemoryMap.defaultValue].
  by rewrite lookup_delete_eq, lookup_empty.
Qed.
End TwoLevelStore.

(** ** Moving the cursor by hand *)



(** X20.  [readBoolean] takes one byte and tells whether it is non-zero:
    0 reads as false and every other byte as true. *)
Theorem readBoolean_nonzero (b : Z) (r : BytesReader) :
  i32_sized r → ahead r [b] →
  readBoolean r = (Ok (negb (b =? 0)), advance r 1) ∧
  (b ≠ 0 → readBoolean r = (Ok true, advance r 1)).
Proof.
  intros Hs Ha. pose proof (parses_readBoolean b r Hs Ha) as Hp. split; [done|].
  intros Hb. rewrite Hp. by apply Z.eqb_neq in Hb as ->.
Qed.

Lemma readBoolean_nonzero_witness :
  let r := new_BytesReader [2] in
  readBoolean r = (Ok (negb (2 =? 0)), advance r 1) ∧
  (2 ≠ 0 → readBoolean r = (Ok true, advance r 1)).
Proof.
  intros r. apply (readBoolean_nonzero 2 r).
  - unfold i32_sized, I32_MAX. vm_compute. discriminate.
  - split; [unfold in_buffer; vm_compute; split; discriminate | reflexivity].
Defined.
